(** * Advanced-Text-Analyser: the vocabulary analysis engine

    A shallow embedding of [vocabulary_analysis.py] and the properties of
    its analysis pipeline.

    Modelling conventions.
    - A Python [str] is a Rocq [string]; its characters are read as ASCII
      code points.  The character classes of the regular expressions
      ([\w], [\s]) and [str.lower] are the ASCII ones; code points of 128
      and above are outside the model (they are kept as they are and
      belong to no class).
    - A Python [int] is a [Z]; [len] is [Z.of_nat] of a list length.
    - A Python [float] is an IEEE-754 binary64 number, given by the
      standard library's [spec_float] with precision 53 and maximal
      exponent 1024; every operation rounds to nearest, ties to even.
    - A raised exception is the [Raise] result of the [exc] monad.
    - [random.sample] is modelled by its contract: a [sampler] is any
      choice of pairwise distinct positions of the population.  Its
      distribution is that of the samplers [draw_sampler], which select
      by the draws of the library's loop, the sequences of draws of
      [draws_space] being equally likely. *)

From Stdlib Require Import ZArith List String Ascii Bool Lia Permutation.
From Stdlib Require Import SpecFloat.
Import ListNotations.

Open Scope string_scope.
Open Scope Z_scope.

(** ** Exceptions *)

Inductive exn : Type :=
| ZeroDivisionError
| IndexError
| ValueError.

Inductive exc (A : Type) : Type :=
| Ok (a : A)
| Raise (e : exn).

Arguments Ok {A} a.
Arguments Raise {A} e.

Definition bind {A B : Type} (m : exc A) (k : A -> exc B) : exc B :=
  match m with
  | Ok a => k a
  | Raise e => Raise e
  end.

Notation "x <- m ;; k" := (bind m (fun x => k))
  (at level 61, m at next level, right associativity).
Notation "' p <- m ;; k" := (bind m (fun x => let p := x in k))
  (at level 61, p pattern, m at next level, right associativity).

(** [mapM f l]: a comprehension [[f(x) for x in l]] whose body may raise;
    the first exception, in iteration order, propagates. *)
Fixpoint mapM {A B : Type} (f : A -> exc B) (l : list A) : exc (list B) :=
  match l with
  | [] => Ok []
  | x :: r => y <- f x ;; ys <- mapM f r ;; Ok (y :: ys)
  end.

(** [filterM p l]: a comprehension [[x for x in l if p(x)]]. *)
Fixpoint filterM {A : Type} (p : A -> exc bool) (l : list A) : exc (list A) :=
  match l with
  | [] => Ok []
  | x :: r => b <- p x ;; ys <- filterM p r ;; Ok (if b then x :: ys else ys)
  end.

Definition len {A : Type} (l : list A) : Z := Z.of_nat (List.length l).

Definition sum (l : list Z) : Z := fold_left Z.add l 0.

(** ** Strings *)

Module PyStr.

Definition code (c : ascii) : nat := nat_of_ascii c.

Definition between (lo hi : nat) (c : ascii) : bool :=
  (Nat.leb lo (code c) && Nat.leb (code c) hi)%bool.

(** [str.lower] on ASCII text: [A-Z] goes to [a-z]. *)
Definition lower_char (c : ascii) : ascii :=
  if between 65 90 c then ascii_of_nat (code c + 32) else c.

Fixpoint lower (s : string) : string :=
  match s with
  | EmptyString => EmptyString
  | String c r => String (lower_char c) (lower r)
  end.

(** [\w]: letters, digits and the underscore. *)
Definition is_word_char (c : ascii) : bool :=
  (between 48 57 c || between 65 90 c || Nat.eqb (code c) 95
   || between 97 122 c)%bool.

(** [\s]: TAB, LF, VT, FF, CR, the separators FS, GS, RS, US and space. *)
Definition is_space (c : ascii) : bool :=
  (between 9 13 c || between 28 32 c)%bool.

(** [c in s] for a one-character [c]. *)
Fixpoint mem (c : ascii) (s : string) : bool :=
  match s with
  | EmptyString => false
  | String d r => (Ascii.eqb c d || mem c r)%bool
  end.

(** [s.endswith(suf)]: some suffix of [s] is [suf]. *)
Fixpoint endswith (s suf : string) : bool :=
  (String.eqb s suf
   || match s with
      | EmptyString => false
      | String _ r => endswith r suf
      end)%bool.

(** [s.startswith(pre)]. *)
Definition startswith (s pre : string) : bool := String.prefix pre s.

(** [m in s] on strings: [m] occurs in [s] as a substring. *)
Fixpoint contains (s m : string) : bool :=
  (String.prefix m s
   || match s with
      | EmptyString => false
      | String _ r => contains r m
      end)%bool.

(** [w in l] for a list of strings. *)
Definition in_list (w : string) (l : list string) : bool :=
  existsb (String.eqb w) l.

(** [sep.join(l)]. *)
Fixpoint join (sep : string) (l : list string) : string :=
  match l with
  | [] => ""
  | [x] => x
  | x :: r => x ++ sep ++ join sep r
  end.

Definition snoc (s : string) (c : ascii) : string := s ++ String c "".

End PyStr.

Import PyStr.

(** ** Tokenizer and sentence splitter *)

(** A pending run of word characters becomes a match when it ends. *)
Definition flush (cur : string) : list string :=
  match cur with
  | EmptyString => []
  | _ => [cur]
  end.

(** [re.findall(r'\b\w+\b', s)]: the maximal runs of word characters of
    [s], from left to right; [cur] is the run being read. *)
Fixpoint findall_words (cur : string) (s : string) : list string :=
  match s with
  | EmptyString => flush cur
  | String c r =>
      if is_word_char c then findall_words (snoc cur c) r
      else flush cur ++ findall_words "" r
  end.

Definition tokenize_text (text : string) : list string :=
  findall_words "" (lower text).

Definition is_terminal (c : ascii) : bool := mem c ".!?".

(** [re.split(r'(?<=[.!?])\s+', s)].  A match starts at a whitespace
    character that follows one of [.!?] and takes the whole run of
    whitespace.  [after_terminal]: the character just read is one of
    [.!?]; [in_sep]: a match is being read; [cur]: the piece being read.
    The last piece is always returned, also when it is empty. *)
Fixpoint split_sentences (after_terminal in_sep : bool) (cur : string)
    (s : string) : list string :=
  match s with
  | EmptyString => [cur]
  | String c r =>
      if is_space c then
        if in_sep then split_sentences false true "" r
        else if after_terminal then cur :: split_sentences false true "" r
        else split_sentences false false (snoc cur c) r
      else split_sentences (is_terminal c) false (snoc cur c) r
  end.

Definition sentence_tokenize (text : string) : list string :=
  split_sentences false false "" text.

(** ** Syllable estimator *)

Definition vowels : string := "aeiouy".

(** The body of the loop [for index in range(1, len(word))]. *)
Definition syllable_step (word : string) (count : Z) (index : nat) : Z :=
  match String.get index word, String.get (index - 1) word with
  | Some c, Some p =>
      if (mem c vowels && negb (mem p vowels))%bool then count + 1 else count
  | _, _ => count
  end.

Definition count_syllables (word : string) : exc Z :=
  let word := lower word in
  match String.get 0 word with
  | None => Raise IndexError
  | Some c0 =>
      let count := 0 in
      let count := if mem c0 vowels then count + 1 else count in
      let count :=
        fold_left (syllable_step word) (seq 1 (String.length word - 1)) count in
      let count := if endswith word "e" then count - 1 else count in
      let count := if endswith word "le" then count + 1 else count in
      let count := if count =? 0 then count + 1 else count in
      Ok count
  end.

(** ** Counter *)

Section Counter.

Variable K : Type.
Variable keq : K -> K -> bool.

(** A [collections.Counter]: keys in order of first insertion. *)
Definition counter : Type := list (K * Z).

Fixpoint counter_incr (k : K) (c : counter) : counter :=
  match c with
  | [] => [(k, 1)]
  | (k', n) :: r =>
      if keq k k' then (k', n + 1) :: r else (k', n) :: counter_incr k r
  end.

(** [Counter(iterable)]. *)
Definition counter_of (l : list K) : counter :=
  fold_left (fun c k => counter_incr k c) l [].

(** [c.get(k, d)]. *)
Fixpoint counter_get (c : counter) (k : K) (d : Z) : Z :=
  match c with
  | [] => d
  | (k', n) :: r => if keq k k' then n else counter_get r k d
  end.

(** [c.values()]. *)
Definition counter_values (c : counter) : list Z := map snd c.

(** Insertion into a list sorted by descending count, before the entries
    that do not count more. *)
Fixpoint insert_desc (x : K * Z) (l : list (K * Z)) : list (K * Z) :=
  match l with
  | [] => [x]
  | y :: r => if snd y <=? snd x then x :: y :: r else y :: insert_desc x r
  end.

(** [c.most_common(n)]: the [n] largest counts, ties in order of first
    insertion. *)
Definition most_common (n : nat) (c : counter) : list (K * Z) :=
  firstn n (fold_right insert_desc [] c).

End Counter.

Arguments counter_incr {K} keq k c.
Arguments counter_of {K} keq l.
Arguments counter_get {K} keq c k d.
Arguments counter_values {K} c.
Arguments most_common {K} n c.

(** ** Lightweight POS tagger *)

Definition pos_tag (word : string) : string :=
  if in_list word ["the"; "a"; "an"] then "DT"
  else if in_list word ["is"; "am"; "are"; "was"; "were"] then "VB"
  else if endswith word "ly" then "RB"
  else if endswith word "ed" then "VBD"
  else if endswith word "ing" then "VBG"
  else if in_list word ["i"; "you"; "he"; "she"; "it"; "we"; "they"] then "PRP"
  else "NN".

Definition simple_pos_tagger (text : string) : list (string * string) :=
  let words := tokenize_text text in
  map (fun word => (word, pos_tag word)) words.

Definition calculate_pos_distribution (text : string) : counter string :=
  let pos_tags := simple_pos_tagger text in
  counter_of String.eqb (map snd pos_tags).

(** ** Numbers *)

Module PyNum.

(** binary64 *)
Definition prec : Z := 53.
Definition emax : Z := 1024.

Definition float : Type := spec_float.

Definition fadd : float -> float -> float := SFadd prec emax.
Definition fsub : float -> float -> float := SFsub prec emax.
Definition fmul : float -> float -> float := SFmul prec emax.
Definition fdiv : float -> float -> float := SFdiv prec emax.
Definition flt : float -> float -> bool := SFltb.
Definition fle : float -> float -> bool := SFleb.
Definition feq : float -> float -> bool := SFeqb.

(** [float(z)]: the nearest binary64 number. *)
Definition of_int (z : Z) : float := binary_normalize prec emax z 0 false.

(** The correctly rounded quotient of two integers, for a divisor other
    than zero: the value of [a / b] on Python integers, and of the
    decimal literal [a/b] when [b] is a power of ten. *)
Definition ratio (a b : Z) : float :=
  match a with
  | 0 => S754_zero (b <? 0)
  | _ =>
      fdiv (S754_finite (a <? 0) (Z.to_pos (Z.abs a)) 0)
           (S754_finite (b <? 0) (Z.to_pos (Z.abs b)) 0)
  end.

Definition is_zero (x : float) : bool :=
  match x with
  | S754_zero _ => true
  | _ => false
  end.

(** [math.sqrt]: a domain error below zero. *)
Definition py_sqrt (x : float) : exc float :=
  match x with
  | S754_finite true _ _ | S754_infinity true => Raise ValueError
  | _ => Ok (SFsqrt prec emax x)
  end.

(** The integer nearest to [p / q], ties to even, for [0 < q]. *)
Definition round_half_even (p q : Z) : Z :=
  let d := p / q in
  match (2 * (p mod q)) ?= q with
  | Lt => d
  | Gt => d + 1
  | Eq => if Z.even d then d else d + 1
  end.

(** [round(x, 1)] on a float: the decimal with one fractional digit
    nearest to the exact value of [x], ties to even, read back as a
    float; zeros, infinities and NaN are returned as they are. *)
Definition round1 (x : float) : float :=
  match x with
  | S754_finite s m e =>
      let n :=
        if 0 <=? e then 10 * Z.pos m * 2 ^ e
        else round_half_even (10 * Z.pos m) (2 ^ (- e)) in
      if n =? 0 then S754_zero s else ratio (if s then - n else n) 10
  | _ => x
  end.

(** A number is an [int] or a [float]. *)
Inductive num : Type :=
| Int (z : Z)
| Flt (f : float).

Definition to_float (a : num) : float :=
  match a with
  | Int z => of_int z
  | Flt f => f
  end.

Definition add (a b : num) : num :=
  match a, b with
  | Int x, Int y => Int (x + y)
  | _, _ => Flt (fadd (to_float a) (to_float b))
  end.

Definition sub (a b : num) : num :=
  match a, b with
  | Int x, Int y => Int (x - y)
  | _, _ => Flt (fsub (to_float a) (to_float b))
  end.

Definition mul (a b : num) : num :=
  match a, b with
  | Int x, Int y => Int (x * y)
  | _, _ => Flt (fmul (to_float a) (to_float b))
  end.

(** [a / b]: true division. *)
Definition truediv (a b : num) : exc num :=
  match a, b with
  | Int x, Int y =>
      if y =? 0 then Raise ZeroDivisionError else Ok (Flt (ratio x y))
  | _, _ =>
      if is_zero (to_float b) then Raise ZeroDivisionError
      else Ok (Flt (fdiv (to_float a) (to_float b)))
  end.

(** [a < b], [a <= b], [a == b]. *)
Definition lt (a b : num) : bool :=
  match a, b with
  | Int x, Int y => x <? y
  | _, _ => flt (to_float a) (to_float b)
  end.

Definition le (a b : num) : bool :=
  match a, b with
  | Int x, Int y => x <=? y
  | _, _ => fle (to_float a) (to_float b)
  end.

Definition eq (a b : num) : bool :=
  match a, b with
  | Int x, Int y => x =? y
  | _, _ => feq (to_float a) (to_float b)
  end.

(** [min(a, b)]: [a] unless [b < a]. *)
Definition min (a b : num) : num := if lt b a then b else a.

(** [round(a, 1)]: an [int] is returned as it is. *)
Definition round (a : num) : num :=
  match a with
  | Int z => Int z
  | Flt f => Flt (round1 f)
  end.

Definition sqrt (a : num) : exc num :=
  f <- py_sqrt (to_float a) ;; Ok (Flt f).

(** A decimal literal [a/b], [b] a power of ten. *)
Definition lit (a b : Z) : num := Flt (ratio a b).

End PyNum.

Import PyNum.

Declare Scope num_scope.
Delimit Scope num_scope with num.
Bind Scope num_scope with num.
Infix "+" := PyNum.add : num_scope.
Infix "-" := PyNum.sub : num_scope.
Infix "*" := PyNum.mul : num_scope.

(** [len(set(l))]. *)
Definition distinct (l : list string) : list string := nodup string_dec l.

(** ** Readability calculators *)

Definition calculate_flesch_kincaid_grade (text : string) : exc num :=
  let sentences := len (sentence_tokenize text) in
  let words := len (tokenize_text text) in
  counts <- mapM count_syllables (tokenize_text text) ;;
  let syllables := sum counts in
  if ((sentences =? 0) || (words =? 0))%bool then Ok (Int 0)
  else
    ws <- truediv (Int words) (Int sentences) ;;
    sw <- truediv (Int syllables) (Int words) ;;
    let grade := (lit 39 100 * ws + lit 118 10 * sw - lit 1559 100)%num in
    Ok (round grade).

Definition calculate_flesch_reading_ease (text : string) : exc num :=
  let sentences := len (sentence_tokenize text) in
  let words := len (tokenize_text text) in
  counts <- mapM count_syllables (tokenize_text text) ;;
  let syllables := sum counts in
  if ((sentences =? 0) || (words =? 0))%bool then Ok (Int 0)
  else
    ws <- truediv (Int words) (Int sentences) ;;
    sw <- truediv (Int syllables) (Int words) ;;
    let score := (lit 206835 1000 - lit 1015 1000 * ws - lit 846 10 * sw)%num in
    Ok (round score).

Definition calculate_gunning_fog_index (text : string) : exc num :=
  let sentences := len (sentence_tokenize text) in
  let words := tokenize_text text in
  complex_words <-
    filterM (fun word => n <- count_syllables word ;; Ok (2 <? n)) words ;;
  if ((sentences =? 0) || (len words =? 0))%bool then Ok (Int 0)
  else
    ws <- truediv (Int (len words)) (Int sentences) ;;
    cw <- truediv (Int (len complex_words)) (Int (len words)) ;;
    let index := (lit 4 10 * (ws + Int 100 * cw))%num in
    Ok (round index).

Definition calculate_smog_index (text : string) : exc num :=
  let sentences := sentence_tokenize text in
  polysyllables <-
    filterM (fun word => n <- count_syllables word ;; Ok (3 <=? n))
            (tokenize_text text) ;;
  if len sentences <? 30 then Ok (Int 0)
  else
    per <- truediv (Int 30) (Int (len sentences)) ;;
    root <- PyNum.sqrt (Int (len polysyllables) * per)%num ;;
    let index := (lit 10430 10000 * root + lit 31291 10000)%num in
    Ok (round index).

(** ** Lexical diversity calculators *)

Definition calculate_ttr (text : string) : exc num :=
  let words := tokenize_text text in
  truediv (Int (len (distinct words))) (Int (len words)).

(** The loop state of [calculate_mtld]. *)
Record mtld_state : Type := {
  factor_count : Z;
  factor_lengths : list Z;
  current_factor : list string
}.

Definition mtld_step (threshold : num) (st : mtld_state) (word : string)
    : exc mtld_state :=
  let current := (current_factor st ++ [word])%list in
  ttr <- truediv (Int (len (distinct current))) (Int (len current)) ;;
  if PyNum.le ttr threshold then
    Ok {| factor_count := factor_count st + 1;
          factor_lengths := (factor_lengths st ++ [len current])%list;
          current_factor := [] |}
  else
    Ok {| factor_count := factor_count st;
          factor_lengths := factor_lengths st;
          current_factor := current |}.

Fixpoint mtld_loop (threshold : num) (st : mtld_state) (words : list string)
    : exc mtld_state :=
  match words with
  | [] => Ok st
  | word :: rest =>
      st' <- mtld_step threshold st word ;; mtld_loop threshold st' rest
  end.

Definition calculate_mtld (text : string) (threshold : num) : exc num :=
  let words := tokenize_text text in
  st <- mtld_loop threshold
          {| factor_count := 0; factor_lengths := []; current_factor := [] |}
          words ;;
  if factor_count st =? 0 then Ok (Int (len words))
  else truediv (Int (sum (factor_lengths st))) (Int (factor_count st)).

(** ** Syntactic metrics *)

Definition calculate_avg_sentence_length (text : string) : exc num :=
  let sentences := sentence_tokenize text in
  let words := tokenize_text text in
  match sentences with
  | [] => Ok (Int 0)
  | _ => truediv (Int (len words)) (Int (len sentences))
  end.

Definition clause_markers : list string :=
  ["and"; "but"; "because"; "if"; "when"; "while"; "although"; "as"; "since";
   "unless"; "though"; "whereas"; "whether"].

(** [sum(1 for marker in clause_markers if marker in sentence.lower()) + 1] *)
Definition sentence_clauses (sentence : string) : Z :=
  sum (map (fun _ => 1)
           (filter (fun marker => contains (lower sentence) marker)
                   clause_markers))
  + 1.

Definition calculate_clause_density (text : string) : exc num :=
  let sentences := sentence_tokenize text in
  let clause_count := sum (map sentence_clauses sentences) in
  match sentences with
  | [] => Ok (Int 0)
  | _ => truediv (Int clause_count) (Int (len sentences))
  end.

(** ** N-gram counter *)

Definition tuple_eqb (a b : list string) : bool :=
  if list_eq_dec string_dec a b then true else false.

(** [words[i:i+n]] for [0 <= i]. *)
Definition slice (words : list string) (i n : nat) : list string :=
  firstn n (skipn i words).

Definition calculate_ngram_frequency (text : string) (n : nat)
    : counter (list string) :=
  let words := tokenize_text text in
  let ngrams :=
    map (fun i => slice words i n)
        (seq 0 (Z.to_nat (len words - Z.of_nat n + 1))) in
  counter_of tuple_eqb ngrams.

(** ** Cloze generator *)

(** The random source of [random.sample]: for a population of [n]
    elements and [k <= n], [pick n k] is the list of the [k] chosen
    positions, pairwise distinct. *)
Record sampler : Type := {
  pick : nat -> nat -> list nat;
  pick_length : forall n k, (k <= n)%nat -> List.length (pick n k) = k;
  pick_nodup : forall n k, (k <= n)%nat -> NoDup (pick n k);
  pick_bound : forall n k i, (k <= n)%nat -> In i (pick n k) -> (i < n)%nat
}.

(** The elements of [population] at the positions [idxs], in that order. *)
Definition choose {A : Type} (population : list A) (idxs : list nat) : list A :=
  flat_map (fun i => match nth_error population i with
                     | Some x => [x]
                     | None => []
                     end) idxs.

(** [random.sample(population, k)]. *)
Definition random_sample {A : Type} (rng : sampler) (population : list A)
    (k : Z) : exc (list A) :=
  let n := len population in
  if ((k <? 0) || (n <? k))%bool then Raise ValueError
  else Ok (choose population (pick rng (List.length population) (Z.to_nat k))).

Definition is_content_tag (tag : string) : bool :=
  existsb (startswith tag) ["NN"; "VB"; "JJ"; "RB"].

Definition content_words_of (text : string) : list string :=
  map fst (filter (fun wt => is_content_tag (snd wt)) (simple_pos_tagger text)).

Definition generate_cloze_test (rng : sampler) (text : string) (num_blanks : Z)
    : exc (string * list string) :=
  let words := tokenize_text text in
  let content_words := content_words_of text in
  let num_blanks :=
    if len content_words <? num_blanks then len content_words else num_blanks in
  words_to_blank <- random_sample rng content_words num_blanks ;;
  let cloze_text :=
    join " " (map (fun word => if in_list word words_to_blank then "_____"
                               else word) words) in
  Ok (cloze_text, words_to_blank).

(** ** Level classifier *)

Definition classify (complexity_score : num) : string :=
  if PyNum.lt complexity_score (lit 35 100) then "A1"
  else if PyNum.lt complexity_score (lit 55 100) then "A2"
  else if PyNum.lt complexity_score (lit 75 100) then "B1"
  else "B2".

Record analysis : Type := {
  overall_level : string;
  flesch_kincaid_grade : num;
  flesch_reading_ease : num;
  gunning_fog_index : num;
  smog_index : num;
  type_token_ratio : num;
  mtld : num;
  avg_sentence_length : num;
  clause_density : num;
  pos_distribution : counter string;
  top_bigrams : list (list string * Z);
  cloze_test : string;
  blanked_words : list string;
  complexity_score : num
}.

(** [(fk/12 + (100 - ease)/100 + fog/18 + smog/18) / 4] *)
Definition readability_of (fk_grade flesch_ease gunning_fog smog : num)
    : exc num :=
  a <- truediv fk_grade (Int 12) ;;
  b <- truediv (Int 100 - flesch_ease)%num (Int 100) ;;
  c <- truediv gunning_fog (Int 18) ;;
  d <- truediv smog (Int 18) ;;
  truediv (a + b + c + d)%num (Int 4).

(** [(pos_distribution.get(tag, 0) / len(tokenize_text(text))) * 0.05] *)
Definition tag_term (pos : counter string) (tag : string) (text : string)
    : exc num :=
  share <- truediv (Int (counter_get String.eqb pos tag 0))
                   (Int (len (tokenize_text text))) ;;
  Ok (share * lit 5 100)%num.

Definition analyze_vocabulary (rng : sampler) (text : string) : exc analysis :=
  fk_grade <- calculate_flesch_kincaid_grade text ;;
  flesch_ease <- calculate_flesch_reading_ease text ;;
  gunning_fog <- calculate_gunning_fog_index text ;;
  smog <- calculate_smog_index text ;;
  ttr <- calculate_ttr text ;;
  mtld <- calculate_mtld text (lit 72 100) ;;
  avg_sentence_length <- calculate_avg_sentence_length text ;;
  clause_density <- calculate_clause_density text ;;
  let pos_distribution := calculate_pos_distribution text in
  let bigram_freq := calculate_ngram_frequency text 2 in
  '(cloze_test, blanked_words) <- generate_cloze_test rng text 5 ;;
  readability_score <- readability_of fk_grade flesch_ease gunning_fog smog ;;
  asl <- truediv avg_sentence_length (Int 20) ;;
  cd <- truediv clause_density (Int 3) ;;
  vb <- tag_term pos_distribution "VB" text ;;
  jj <- tag_term pos_distribution "JJ" text ;;
  let complexity_score :=
    (readability_score * lit 4 10
     + (Int 1 - ttr) * lit 2 10
     + PyNum.min asl (Int 1) * lit 2 10
     + PyNum.min cd (Int 1) * lit 1 10
     + vb
     + jj)%num in
  let overall_level := classify complexity_score in
  Ok {| overall_level := overall_level;
        flesch_kincaid_grade := fk_grade;
        flesch_reading_ease := flesch_ease;
        gunning_fog_index := gunning_fog;
        smog_index := smog;
        type_token_ratio := ttr;
        mtld := mtld;
        avg_sentence_length := avg_sentence_length;
        clause_density := clause_density;
        pos_distribution := pos_distribution;
        top_bigrams := most_common 10 bigram_freq;
        cloze_test := cloze_test;
        blanked_words := blanked_words;
        complexity_score := complexity_score |}.

(** ** Text adjustment (the caller in [app.py])

    The language-model service is outside the program: [reply i] is the
    content of its answer to the [i]-th request, [None] when the request
    fails with an exception, and [rngs i] is the random source at the
    [i]-th analysis.  What the functions print is left out. *)

(** [s.lstrip()], [s.rstrip()], [s.strip()]. *)
Fixpoint lstrip (s : string) : string :=
  match s with
  | EmptyString => EmptyString
  | String c r => if is_space c then lstrip r else s
  end.

Fixpoint rstrip (s : string) : string :=
  match s with
  | EmptyString => EmptyString
  | String c r =>
      match rstrip r with
      | EmptyString => if is_space c then EmptyString else String c EmptyString
      | r' => String c r'
      end
  end.

Definition strip (s : string) : string := rstrip (lstrip s).

(** [adjust_vocabulary(text, target_level)]: the stripped content of the
    answer, or [text] when the request failed. *)
Definition adjust_vocabulary (response : option string)
    (text target_level : string) : string :=
  match response with
  | Some content => strip content
  | None => text
  end.

(** The loop [for attempt in range(max_attempts)] from [attempt] on, with
    [remaining] iterations left; [None] when the loop ends without a
    [return]. *)
Fixpoint attempts_loop (reply : nat -> option string) (rngs : nat -> sampler)
    (text target_level : string) (max_attempts : Z) (remaining : nat)
    (attempt : Z) : exc (option (string * analysis * Z)) :=
  match remaining with
  | O => Ok None
  | S rest =>
      let adjusted_text :=
        adjust_vocabulary (reply (Z.to_nat attempt)) text target_level in
      analysis <- analyze_vocabulary (rngs (Z.to_nat attempt)) adjusted_text ;;
      if String.eqb (overall_level analysis) target_level then
        Ok (Some (adjusted_text, analysis, attempt + 1))
      else if attempt =? max_attempts - 1 then
        Ok (Some (adjusted_text, analysis, max_attempts))
      else
        attempts_loop reply rngs text target_level max_attempts rest
                      (attempt + 1)
  end.

Definition adjust_text_with_attempts (reply : nat -> option string)
    (rngs : nat -> sampler) (text target_level : string) (max_attempts : Z)
    : exc (string * analysis * Z) :=
  returned <- attempts_loop reply rngs text target_level max_attempts
                (Z.to_nat max_attempts) 0 ;;
  match returned with
  | Some result => Ok result
  | None =>
      analysis <- analyze_vocabulary (rngs (Z.to_nat max_attempts)) text ;;
      Ok (text, analysis, max_attempts)
  end.

(** A sampler: the first [k] positions. *)
Definition first_positions : sampler.
Proof.
  refine {| pick := fun _ k => seq 0 k |}.
  - intros n k _. apply length_seq.
  - intros n k _. apply seq_NoDup.
  - intros n k i Hk Hi. apply in_seq in Hi. lia.
Defined.

(** A sampler: the last [k] positions, from the end. *)
Definition last_positions : sampler.
Proof.
  refine {| pick := fun n k => rev (seq (n - k) k) |}.
  - intros n k _. now rewrite length_rev, length_seq.
  - intros n k _. apply NoDup_rev, seq_NoDup.
  - intros n k i Hk Hi. apply in_rev, in_seq in Hi. lia.
Defined.

(** * Properties *)

(** ** The embedding on sample inputs *)

Example tokenize_sample :
  tokenize_text "Don't STOP_it, 42x!" = ["don"; "t"; "stop_it"; "42x"].
Proof. reflexivity. Qed.

Example sentences_sample :
  sentence_tokenize "Hi!  You? ok .x" = ["Hi!"; "You?"; "ok .x"]
  /\ sentence_tokenize "a.  " = ["a."; ""]
  /\ sentence_tokenize "   " = ["   "].
Proof. repeat split; reflexivity. Qed.

Example syllables_sample :
  mapM count_syllables ["the"; "table"; "beautiful"; "rhythm"; "make"]
  = Ok [1; 2; 3; 1; 1]
  /\ count_syllables "" = Raise IndexError.
Proof. split; reflexivity. Qed.

Example tagger_sample :
  simple_pos_tagger "The cat is quickly jumped running it"
  = [("the", "DT"); ("cat", "NN"); ("is", "VB"); ("quickly", "RB");
     ("jumped", "VBD"); ("running", "VBG"); ("it", "PRP")].
Proof. reflexivity. Qed.

Example most_common_sample :
  most_common 3 (counter_of String.eqb ["a"; "b"; "c"; "b"; "d"; "c"])
  = [("b", 2); ("c", 2); ("a", 1)].
Proof. reflexivity. Qed.

Example bigram_sample :
  counter_get tuple_eqb
    (calculate_ngram_frequency "the cat sat. the cat ran." 2)
    ["the"; "cat"] 0 = 2.
Proof. reflexivity. Qed.

(** [round(2.675, 1) == 2.7], [round(0.35, 1) == 0.3],
    [round(0.25, 1) == 0.2], [0.1 + 0.2 != 0.3]. *)
Example round_sample :
  round1 (ratio 2675 1000) = ratio 27 10
  /\ round1 (ratio 35 100) = ratio 3 10
  /\ round1 (ratio 25 100) = ratio 2 10
  /\ feq (fadd (ratio 1 10) (ratio 2 10)) (ratio 3 10) = false.
Proof. repeat split; vm_compute; reflexivity. Qed.

(** One sentence of nine words and eleven syllables: the grade is 2.3,
    the reading ease 94.3, the fog index 3.6, and the level A1. *)
Example analysis_sample :
  exists r,
    analyze_vocabulary first_positions
      "The quick brown fox jumps over the lazy dog." = Ok r
    /\ flesch_kincaid_grade r = lit 23 10
    /\ flesch_reading_ease r = lit 943 10
    /\ gunning_fog_index r = lit 36 10
    /\ smog_index r = Int 0
    /\ mtld r = Int 9
    /\ pos_distribution r = [("DT", 2); ("NN", 7)]
    /\ cloze_test r = "the _____ _____ _____ _____ _____ the lazy dog"
    /\ blanked_words r = ["quick"; "brown"; "fox"; "jumps"; "over"]
    /\ overall_level r = "A1".
Proof. eexists. split; [vm_compute; reflexivity|]. repeat split. Qed.

(** ** Sums and lengths *)

Lemma fold_add_shift (l : list Z) (a : Z) :
  fold_left Z.add l a = a + fold_left Z.add l 0.
Proof.
  revert a; induction l as [|x l IH]; intros a; simpl.
  - lia.
  - rewrite IH, (IH x). lia.
Qed.

Lemma sum_cons (x : Z) (l : list Z) : sum (x :: l) = x + sum l.
Proof. unfold sum; simpl. apply fold_add_shift. Qed.

Lemma sum_ones {A : Type} (l : list A) : sum (map (fun _ => 1) l) = len l.
Proof.
  induction l as [|x l IH].
  - reflexivity.
  - cbn [map]. rewrite sum_cons, IH. unfold len; cbn [List.length]. lia.
Qed.

Lemma len_nonneg {A : Type} (l : list A) : 0 <= len l.
Proof. unfold len; lia. Qed.

Lemma len_zero_nil {A : Type} (l : list A) : len l = 0 -> l = [].
Proof. destruct l; [reflexivity | unfold len; cbn; lia]. Qed.

(** ** The histogram of tags *)

Section CounterFacts.

Context {K : Type} (keq : K -> K -> bool).

Lemma counter_incr_sum (k : K) (c : counter K) :
  sum (counter_values (counter_incr keq k c)) = sum (counter_values c) + 1.
Proof.
  induction c as [|[k' n] c IH].
  - reflexivity.
  - cbn [counter_incr]. unfold counter_values in *.
    destruct (keq k k'); cbn [map snd]; rewrite !sum_cons.
    + lia.
    + rewrite IH. lia.
Qed.

Lemma counter_fold_sum (l : list K) (c : counter K) :
  sum (counter_values (fold_left (fun c k => counter_incr keq k c) l c))
  = sum (counter_values c) + len l.
Proof.
  revert c; induction l as [|k l IH]; intros c; cbn [fold_left].
  - unfold len; cbn; lia.
  - rewrite IH, counter_incr_sum. unfold len; cbn [List.length]. lia.
Qed.

Lemma counter_of_sum (l : list K) :
  sum (counter_values (counter_of keq l)) = len l.
Proof. unfold counter_of. now rewrite counter_fold_sum. Qed.

End CounterFacts.

Lemma tagger_words (text : string) :
  map fst (simple_pos_tagger text) = tokenize_text text.
Proof.
  unfold simple_pos_tagger. rewrite map_map. cbn. apply map_id.
Qed.

(** C2: the counts of the POS-tag histogram add up to the number of
    tokens, and the tagger gives each token, in order, one tag. *)
Theorem pos_distribution_sums_to_token_count (text : string) :
  sum (counter_values (calculate_pos_distribution text))
  = len (tokenize_text text)
  /\ map fst (simple_pos_tagger text) = tokenize_text text
  /\ List.length (simple_pos_tagger text) = List.length (tokenize_text text).
Proof.
  split; [|split].
  - unfold calculate_pos_distribution. rewrite counter_of_sum.
    unfold len, simple_pos_tagger. now rewrite !length_map.
  - apply tagger_words.
  - unfold simple_pos_tagger. apply length_map.
Qed.

(** ** Tokens and sentences *)

Lemma flush_nonempty (cur w : string) : In w (flush cur) -> w <> "".
Proof.
  destruct cur; cbn; [tauto | intros [<- | []]; discriminate].
Qed.

Lemma findall_words_nonempty (s cur w : string) :
  In w (findall_words cur s) -> w <> "".
Proof.
  revert cur; induction s as [|c r IH]; intros cur; cbn [findall_words].
  - apply flush_nonempty.
  - destruct (is_word_char c).
    + apply IH.
    + intros H. apply in_app_or in H as [H | H].
      * now apply flush_nonempty in H.
      * now apply IH in H.
Qed.

Lemma tokens_nonempty (text w : string) :
  In w (tokenize_text text) -> w <> "".
Proof. apply findall_words_nonempty. Qed.

Lemma split_sentences_length (s cur : string) (a b : bool) :
  (1 <= List.length (split_sentences a b cur s))%nat.
Proof.
  revert cur a b; induction s as [|c r IH]; intros cur a b;
    cbn [split_sentences].
  - cbn; lia.
  - destruct (is_space c); [destruct b; [|destruct a]|]; cbn [List.length];
      try apply IH; lia.
Qed.

Lemma sentences_positive (text : string) : 1 <= len (sentence_tokenize text).
Proof.
  unfold len, sentence_tokenize.
  pose proof (split_sentences_length text "" false false). lia.
Qed.

Lemma truediv_int (a b : Z) :
  b <> 0 -> truediv (Int a) (Int b) = Ok (Flt (ratio a b)).
Proof.
  intros H. unfold truediv. now destruct (Z.eqb_spec b 0).
Qed.

Lemma avg_sentence_length_quotient (text : string) :
  calculate_avg_sentence_length text
  = Ok (Flt (ratio (len (tokenize_text text)) (len (sentence_tokenize text)))).
Proof.
  pose proof (sentences_positive text) as Hpos.
  unfold calculate_avg_sentence_length.
  destruct (sentence_tokenize text) eqn:E.
  - unfold len in Hpos; cbn in Hpos; lia.
  - apply truediv_int. lia.
Qed.

Lemma clause_density_quotient (text : string) :
  calculate_clause_density text
  = Ok (Flt (ratio (sum (map sentence_clauses (sentence_tokenize text)))
                   (len (sentence_tokenize text)))).
Proof.
  pose proof (sentences_positive text) as Hpos.
  unfold calculate_clause_density.
  destruct (sentence_tokenize text) eqn:E.
  - unfold len in Hpos; cbn in Hpos; lia.
  - apply truediv_int. lia.
Qed.

(** C10: the sentence splitter returns at least one sentence for every
    text, the empty text giving one empty sentence; so the guards on a
    sentence count of zero never fire, and the average sentence length and
    the clause density are quotients by a count other than zero. *)
Theorem sentence_tokenize_never_empty (text : string) :
  (exists first rest, sentence_tokenize text = first :: rest)
  /\ 1 <= len (sentence_tokenize text)
  /\ sentence_tokenize "" = [""]
  /\ (len (sentence_tokenize text) =? 0) = false
  /\ ((len (sentence_tokenize text) =? 0) || (len (tokenize_text text) =? 0))%bool
     = (len (tokenize_text text) =? 0)
  /\ calculate_avg_sentence_length text
     = Ok (Flt (ratio (len (tokenize_text text))
                      (len (sentence_tokenize text))))
  /\ calculate_clause_density text
     = Ok (Flt (ratio (sum (map sentence_clauses (sentence_tokenize text)))
                      (len (sentence_tokenize text)))).
Proof.
  pose proof (sentences_positive text) as Hpos.
  assert (Hne : len (sentence_tokenize text) <> 0) by lia.
  repeat split.
  - destruct (sentence_tokenize text) as [|first rest] eqn:E.
    + unfold len in Hpos; cbn in Hpos; lia.
    + now exists first, rest.
  - exact Hpos.
  - now apply Z.eqb_neq.
  - now destruct (Z.eqb_spec (len (sentence_tokenize text)) 0).
  - apply avg_sentence_length_quotient.
  - apply clause_density_quotient.
Qed.

(** ** Syllables *)

Section Syllables.

Variable word : string.

(** A vowel at [i] that follows a character that is not a vowel. *)
Definition onset (i : nat) : Prop :=
  exists c p,
    String.get i word = Some c /\ String.get (i - 1) word = Some p
    /\ mem c vowels = true /\ mem p vowels = false.

Lemma syllable_step_mono (count : Z) (i : nat) :
  count <= syllable_step word count i.
Proof.
  unfold syllable_step.
  destruct (String.get i word); [|lia].
  destruct (String.get (i - 1) word); [|lia].
  destruct (mem a vowels && negb (mem a0 vowels))%bool; lia.
Qed.

Lemma syllable_loop_mono (l : list nat) (count : Z) :
  count <= fold_left (syllable_step word) l count.
Proof.
  revert count; induction l as [|i l IH]; intros count; cbn [fold_left].
  - lia.
  - pose proof (syllable_step_mono count i).
    pose proof (IH (syllable_step word count i)). lia.
Qed.

Lemma syllable_step_onset (count : Z) (i : nat) :
  onset i -> syllable_step word count i = count + 1.
Proof.
  intros (c & p & Hc & Hp & Vc & Vp). unfold syllable_step.
  now rewrite Hc, Hp, Vc, Vp.
Qed.

Lemma syllable_loop_onset (l : list nat) (count : Z) (i : nat) :
  In i l -> onset i -> count + 1 <= fold_left (syllable_step word) l count.
Proof.
  revert count; induction l as [|j l IH]; intros count Hin Hon.
  - destruct Hin.
  - cbn [fold_left]. destruct Hin as [-> | Hin].
    + rewrite (syllable_step_onset count i Hon). apply syllable_loop_mono.
    + pose proof (syllable_step_mono count j).
      pose proof (IH (syllable_step word count j) Hin Hon). lia.
Qed.

End Syllables.

Lemma get_previous (w : string) (k : nat) (c : ascii) :
  String.get (S k) w = Some c -> exists p, String.get k w = Some p.
Proof.
  revert k; induction w as [|a r IH]; intros k H; [discriminate|].
  destruct k as [|k]; [now exists a|].
  cbn in H |- *. now apply IH.
Qed.

Lemma get_in_range (w : string) (k : nat) (c : ascii) :
  String.get k w = Some c -> (k < String.length w)%nat.
Proof.
  revert k; induction w as [|a r IH]; intros k H; [discriminate|].
  destruct k as [|k]; cbn in *; [lia|]. apply IH in H. lia.
Qed.

(** A vowel at [k] belongs to a group of vowels that starts the word or
    starts after a character that is not a vowel. *)
Lemma vowel_group_start (w : string) (k : nat) (c : ascii) :
  String.get k w = Some c -> mem c vowels = true ->
  (exists c0, String.get 0 w = Some c0 /\ mem c0 vowels = true)
  \/ (exists i, (1 <= i <= k)%nat /\ onset w i).
Proof.
  revert c; induction k as [|k IH]; intros c Hc Vc.
  - left. now exists c.
  - destruct (get_previous w k c Hc) as [p Hp].
    destruct (mem p vowels) eqn:Vp.
    + destruct (IH p Hp Vp) as [H | (i & Hi & Hon)]; [now left|].
      right. exists i. split; [lia | exact Hon].
    + right. exists (S k). split; [lia|].
      exists c, p. cbn [Nat.sub]. rewrite Nat.sub_0_r. now repeat split.
Qed.

Lemma endswith_e_get (w : string) :
  endswith w "e" = true -> exists k, String.get k w = Some "e"%char.
Proof.
  induction w as [|a r IH]; cbn [endswith]; intros H.
  - discriminate.
  - apply orb_true_iff in H as [H | H].
    + apply String.eqb_eq in H. exists 0%nat. now rewrite H.
    + destruct (IH H) as [k Hk]. now exists (S k).
Qed.

(** The count after the loop is at least 1 when the word ends in [e]. *)
Lemma syllable_loop_final_e (w : string) (c0 : ascii) :
  String.get 0 w = Some c0 ->
  endswith w "e" = true ->
  1 <= fold_left (syllable_step w) (seq 1 (String.length w - 1))
         (if mem c0 vowels then 0 + 1 else 0).
Proof.
  intros H0 He.
  destruct (endswith_e_get w He) as [k Hk].
  destruct (vowel_group_start w k "e"%char Hk eq_refl)
    as [(c & Hc & Vc) | (i & Hi & Hon)].
  - rewrite H0 in Hc. injection Hc as ->. rewrite Vc.
    apply (syllable_loop_mono w _ (0 + 1)).
  - assert (Hin : In i (seq 1 (String.length w - 1))).
    { apply in_seq. apply get_in_range in Hk.
      destruct Hon as (c & _ & Hc & _). apply get_in_range in Hc. lia. }
    pose proof (syllable_loop_onset w _ (if mem c0 vowels then 0 + 1 else 0)
                  i Hin Hon).
    destruct (mem c0 vowels); lia.
Qed.

(** C9: on a word that is not empty the syllable estimator returns, and
    what it returns is at least 1. *)
Theorem count_syllables_at_least_one (word : string) :
  word <> "" -> exists n, count_syllables word = Ok n /\ 1 <= n.
Proof.
  intros Hne. destruct word as [|a r]; [contradiction|].
  unfold count_syllables. cbn [lower String.get].
  set (w := String (lower_char a) (lower r)).
  set (c0 := lower_char a).
  set (loop := fold_left (syllable_step w) (seq 1 (String.length w - 1))
                 (if mem c0 vowels then 0 + 1 else 0)).
  assert (H0 : String.get 0 w = Some c0) by reflexivity.
  assert (Hloop : 0 <= loop).
  { subst loop. pose proof (syllable_loop_mono w (seq 1 (String.length w - 1))
                              (if mem c0 vowels then 0 + 1 else 0)).
    destruct (mem c0 vowels); lia. }
  assert (He : endswith w "e" = true -> 1 <= loop).
  { apply syllable_loop_final_e. exact H0. }
  eexists. split; [reflexivity|].
  fold loop.
  destruct (endswith w "e") eqn:E1; [specialize (He eq_refl)|];
    destruct (endswith w "le") eqn:E2;
    match goal with |- context [?x =? 0] => destruct (Z.eqb_spec x 0) end;
    lia.
Qed.

Lemma count_syllables_at_least_one_witness :
  "table" <> "" /\ exists n, count_syllables "table" = Ok n /\ 1 <= n.
Proof.
  split; [discriminate|].
  apply (count_syllables_at_least_one "table"). discriminate.
Defined.

(** ** Clause markers *)

(** [m] occurs somewhere in [s]. *)
Definition occurs (m s : string) : Prop :=
  exists pre post, s = pre ++ m ++ post.

Lemma prefix_iff (m s : string) :
  String.prefix m s = true <-> exists post, s = m ++ post.
Proof.
  revert s; induction m as [|a m IH]; intros s.
  - split; [intros _; now exists s | intros _; now destruct s].
  - destruct s as [|b s]; cbn [String.prefix].
    + split; [discriminate | intros [post H]; discriminate].
    + destruct (ascii_dec a b) as [-> | Hab].
      * rewrite IH. split; intros [post H]; exists post.
        -- cbn. now rewrite H.
        -- cbn in H. now injection H.
      * split; [discriminate|]. intros [post H]. cbn in H.
        injection H as H _. congruence.
Qed.

Lemma contains_iff (s m : string) : contains s m = true <-> occurs m s.
Proof.
  split.
  - induction s as [|a s IH]; cbn [contains]; intros H;
      apply orb_true_iff in H as [H | H]; try discriminate.
    + apply prefix_iff in H as [post H]. now exists "", post.
    + apply prefix_iff in H as [post H]. now exists "", post.
    + destruct (IH H) as (pre & post & E).
      exists (String a pre), post. cbn. now rewrite E.
  - intros (pre & post & E). revert s E.
    induction pre as [|a pre IH]; intros s E.
    + cbn in E. assert (H : String.prefix m s = true)
        by (apply prefix_iff; now exists post).
      destruct s; cbn [contains]; now rewrite H.
    + cbn in E. subst s. cbn [contains].
      rewrite (IH _ eq_refl). apply orb_true_r.
Qed.

Lemma clause_markers_distinct : NoDup clause_markers.
Proof.
  unfold clause_markers.
  repeat (constructor; [cbn; intuition discriminate|]). constructor.
Qed.

Lemma sentence_clauses_found (sentence : string) :
  exists found,
    NoDup found
    /\ (forall m, In m found
                  <-> In m clause_markers /\ occurs m (lower sentence))
    /\ sentence_clauses sentence = 1 + len found.
Proof.
  exists (filter (fun marker => contains (lower sentence) marker)
                 clause_markers).
  split; [|split].
  - apply NoDup_filter, clause_markers_distinct.
  - intros m. rewrite filter_In, contains_iff. tauto.
  - unfold sentence_clauses. rewrite sum_ones. lia.
Qed.

(** C7: the clause count of a sentence is 1 plus the number of distinct
    markers of the fixed set that occur in the lower-cased sentence, each
    marker counted once however often it occurs; the clause density is the
    sum of the clause counts divided by the number of sentences. *)
Theorem clause_density_counts_marker_presence (text : string) :
  clause_markers
  = ["and"; "but"; "because"; "if"; "when"; "while"; "although"; "as";
     "since"; "unless"; "though"; "whereas"; "whether"]
  /\ (forall sentence, exists found,
        NoDup found
        /\ (forall m, In m found
                      <-> In m clause_markers /\ occurs m (lower sentence))
        /\ sentence_clauses sentence = 1 + len found)
  /\ sentence_clauses "Cats and dogs AND birds and fish." = 2
  /\ calculate_clause_density text
     = Ok (Flt (ratio (sum (map sentence_clauses (sentence_tokenize text)))
                      (len (sentence_tokenize text)))).
Proof.
  split; [reflexivity|]. split; [apply sentence_clauses_found|].
  split; [reflexivity|].
  apply clause_density_quotient.
Qed.

(** ** The order of floats *)

(** The place of a float in the order of the extended reals: the class
    (from minus infinity to plus infinity), then the exponent, then the
    mantissa; NaN has no place. *)
Definition rank (x : float) : option (Z * Z * Z) :=
  match x with
  | S754_nan => None
  | S754_infinity true => Some (-2, 0, 0)
  | S754_finite true m e => Some (-1, - e, Z.neg m)
  | S754_zero _ => Some (0, 0, 0)
  | S754_finite false m e => Some (1, e, Z.pos m)
  | S754_infinity false => Some (2, 0, 0)
  end.

Definition key_lt (k1 k2 : Z * Z * Z) : Prop :=
  let '(a1, b1, c1) := k1 in
  let '(a2, b2, c2) := k2 in
  a1 < a2 \/ (a1 = a2 /\ (b1 < b2 \/ (b1 = b2 /\ c1 < c2))).

Definition key_le (k1 k2 : Z * Z * Z) : Prop := key_lt k1 k2 \/ k1 = k2.

Ltac rank_cases :=
  repeat match goal with
         | s : bool |- _ => destruct s
         | |- context [?a ?= ?b] => destruct (Z.compare_spec a b)
         | |- context [Pos.compare_cont Eq ?a ?b] =>
             change (Pos.compare_cont Eq a b) with (Pos.compare a b);
             destruct (Pos.compare_spec a b)
         end.

Ltac rank_forward H :=
  first
    [ discriminate H
    | eexists _, _; split; [reflexivity|]; split; [reflexivity|];
      unfold key_le, key_lt; first [ lia | right; repeat f_equal; lia ] ].

Ltac rank_backward Ex Ey L :=
  first
    [ reflexivity
    | discriminate Ex
    | discriminate Ey
    | injection Ex as <-; injection Ey as <-;
      unfold key_le, key_lt in L; exfalso;
      first [ lia | destruct L as [L | L]; [lia | injection L; lia] ] ].

Ltac rank_solve :=
  split;
  [ let H := fresh "H" in intros H; rank_forward H
  | let Ex := fresh "Ex" in
    let Ey := fresh "Ey" in
    let L := fresh "L" in
    intros (kx & ky & Ex & Ey & L); rank_backward Ex Ey L ].

Lemma flt_rank (x y : float) :
  flt x y = true
  <-> exists kx ky, rank x = Some kx /\ rank y = Some ky /\ key_lt kx ky.
Proof.
  unfold flt, SFltb, SFcompare, rank.
  destruct x as [sx|sx| |sx mx ex], y as [sy|sy| |sy my ey];
    rank_cases; cbn [CompOpp]; rank_solve.
Qed.

Lemma fle_rank (x y : float) :
  fle x y = true
  <-> exists kx ky, rank x = Some kx /\ rank y = Some ky /\ key_le kx ky.
Proof.
  unfold fle, SFleb, SFcompare, rank.
  destruct x as [sx|sx| |sx mx ex], y as [sy|sy| |sy my ey];
    rank_cases; cbn [CompOpp]; rank_solve.
Qed.

Lemma fle_flt_false (x y : float) : fle y x = true -> flt x y = false.
Proof.
  intros Hle. destruct (flt x y) eqn:Hlt; [|reflexivity].
  apply flt_rank in Hlt as (kx & ky & Ex & Ey & L).
  apply fle_rank in Hle as (ky' & kx' & Ey' & Ex' & L').
  rewrite Ex in Ex'; rewrite Ey in Ey'.
  injection Ex' as <-; injection Ey' as <-.
  destruct kx as [[a b] c], ky as [[a' b'] c'].
  unfold key_le, key_lt in *.
  destruct L' as [L' | L']; [lia | injection L'; lia].
Qed.

Lemma fle_trans (x y z : float) :
  fle x y = true -> fle y z = true -> fle x z = true.
Proof.
  intros Hxy Hyz.
  apply fle_rank in Hxy as (kx & ky & Ex & Ey & L).
  apply fle_rank in Hyz as (ky' & kz & Ey' & Ez & L').
  rewrite Ey in Ey'; injection Ey' as <-.
  apply fle_rank. exists kx, kz. repeat split; trivial.
  destruct kx as [[a b] c], ky as [[a' b'] c'], kz as [[a'' b''] c''].
  unfold key_le, key_lt in *.
  destruct L as [L | L], L' as [L' | L'];
    try (injection L as -> -> ->); try (injection L' as -> -> ->);
    auto; left; lia.
Qed.

Lemma flt_false_fle (x y : float) :
  rank x <> None -> rank y <> None -> flt x y = false -> fle y x = true.
Proof.
  intros Hx Hy Hlt.
  destruct (rank x) as [[[a b] c]|] eqn:Ex; [|contradiction].
  destruct (rank y) as [[[a' b'] c']|] eqn:Ey; [|contradiction].
  apply fle_rank. exists (a', b', c'), (a, b, c). repeat split; trivial.
  assert (Hn : ~ key_lt (a, b, c) (a', b', c')).
  { intros L. assert (flt x y = true); [|congruence].
    apply flt_rank. now exists (a, b, c), (a', b', c'). }
  unfold key_le, key_lt in *.
  assert (C : (a' < a \/ a' = a /\ (b' < b \/ b' = b /\ c' < c))
              \/ (a' = a /\ b' = b /\ c' = c)) by lia.
  destruct C as [C | (-> & -> & ->)]; [now left | now right].
Qed.

(** ** Level classifier *)

Lemma lt_num_float (score : num) (c : float) :
  PyNum.lt score (Flt c) = flt (to_float score) c.
Proof. now destruct score. Qed.

Lemma le_float_num (c : float) (score : num) :
  PyNum.le (Flt c) score = fle c (to_float score).
Proof. now destruct score. Qed.

(** A score that is at least a threshold is not below a lower one. *)
Lemma not_below (lo hi : Z) (score : num) :
  fle (ratio lo 100) (ratio hi 100) = true ->
  PyNum.le (lit hi 100) score = true ->
  PyNum.lt score (lit lo 100) = false.
Proof.
  unfold lit. rewrite le_float_num, lt_num_float. intros Hc Hle.
  apply fle_flt_false. now apply (fle_trans _ (ratio hi 100)).
Qed.

(** C5: the classifier maps the score to a level by the thresholds 0.35,
    0.55 and 0.75; each interval contains its lower bound and not its
    upper one, every score that is a number falls in one of them, and the
    levels at 0.34, 0.35, 0.55 and 0.75 are A1, A2, B1 and B2. *)
Theorem classify_half_open_intervals (score : num) :
  (PyNum.lt score (lit 35 100) = true -> classify score = "A1")
  /\ (PyNum.le (lit 35 100) score = true ->
      PyNum.lt score (lit 55 100) = true -> classify score = "A2")
  /\ (PyNum.le (lit 55 100) score = true ->
      PyNum.lt score (lit 75 100) = true -> classify score = "B1")
  /\ (PyNum.le (lit 75 100) score = true -> classify score = "B2")
  /\ (rank (to_float score) <> None ->
      PyNum.lt score (lit 35 100) = true
      \/ (PyNum.le (lit 35 100) score = true
          /\ PyNum.lt score (lit 55 100) = true)
      \/ (PyNum.le (lit 55 100) score = true
          /\ PyNum.lt score (lit 75 100) = true)
      \/ PyNum.le (lit 75 100) score = true)
  /\ classify (lit 34 100) = "A1"
  /\ classify (lit 35 100) = "A2"
  /\ classify (lit 55 100) = "B1"
  /\ classify (lit 75 100) = "B2".
Proof.
  unfold classify.
  split; [|split; [|split; [|split; [|split]]]].
  - now intros ->.
  - intros Hle Hlt.
    now rewrite (not_below 35 35 score eq_refl Hle), Hlt.
  - intros Hle Hlt.
    now rewrite (not_below 35 55 score eq_refl Hle),
      (not_below 55 55 score eq_refl Hle), Hlt.
  - intros Hle.
    now rewrite (not_below 35 75 score eq_refl Hle),
      (not_below 55 75 score eq_refl Hle),
      (not_below 75 75 score eq_refl Hle).
  - intros Hnum. unfold lit.
    rewrite !le_float_num, !lt_num_float.
    destruct (flt (to_float score) (ratio 35 100)) eqn:E1; [now left|].
    right. apply flt_false_fle in E1; [|exact Hnum|discriminate].
    destruct (flt (to_float score) (ratio 55 100)) eqn:E2; [now left|].
    right. apply flt_false_fle in E2; [|exact Hnum|discriminate].
    destruct (flt (to_float score) (ratio 75 100)) eqn:E3; [now left|].
    right. apply flt_false_fle in E3; [|exact Hnum|discriminate].
    exact E3.
  - repeat split; vm_compute; reflexivity.
Qed.

(** ** Cloze generator *)

Lemma choose_length {A : Type} (population : list A) (idxs : list nat) :
  (forall i, In i idxs -> (i < List.length population)%nat) ->
  List.length (choose population idxs) = List.length idxs.
Proof.
  induction idxs as [|i idxs IH]; intros Hb; [reflexivity|].
  unfold choose in *. cbn [flat_map]. rewrite length_app, IH.
  - destruct (nth_error population i) eqn:E; [reflexivity|].
    apply nth_error_None in E. specialize (Hb i (or_introl eq_refl)). lia.
  - intros j Hj. apply Hb. now right.
Qed.

Lemma choose_incl {A : Type} (population : list A) (idxs : list nat) (x : A) :
  In x (choose population idxs) -> In x population.
Proof.
  unfold choose. rewrite in_flat_map. intros (i & _ & Hx).
  destruct (nth_error population i) eqn:E; [|destruct Hx].
  destruct Hx as [<- | []]. eapply nth_error_In, E.
Qed.

Lemma random_sample_returns {A : Type} (rng : sampler) (population : list A)
    (k : Z) :
  0 <= k <= len population ->
  random_sample rng population k
  = Ok (choose population (pick rng (List.length population) (Z.to_nat k))).
Proof.
  intros Hk. unfold random_sample.
  destruct (Z.ltb_spec k 0); [lia|].
  destruct (Z.ltb_spec (len population) k); [lia|]. reflexivity.
Qed.

Lemma random_sample_negative {A : Type} (rng : sampler) (population : list A)
    (k : Z) :
  k < 0 -> random_sample rng population k = Raise ValueError.
Proof.
  intros Hk. unfold random_sample. now destruct (Z.ltb_spec k 0); [|lia].
Qed.

(** The positions drawn for a request of [k] blanks. *)
Definition drawn (rng : sampler) (text : string) (k : Z) : list nat :=
  pick rng (List.length (content_words_of text))
       (Z.to_nat (Z.min k (len (content_words_of text)))).

Definition blank_out (words blanked : list string) : string :=
  join " " (map (fun word => if in_list word blanked then "_____" else word)
                words).

Lemma generate_cloze_test_returns (rng : sampler) (text : string) (k : Z) :
  0 <= k ->
  generate_cloze_test rng text k
  = Ok (blank_out (tokenize_text text)
                  (choose (content_words_of text) (drawn rng text k)),
        choose (content_words_of text) (drawn rng text k)).
Proof.
  intros Hk. unfold generate_cloze_test, drawn.
  pose proof (len_nonneg (content_words_of text)) as Hn.
  destruct (Z.ltb_spec (len (content_words_of text)) k).
  - rewrite random_sample_returns by lia. rewrite Z.min_r by lia. reflexivity.
  - rewrite random_sample_returns by lia. rewrite Z.min_l by lia. reflexivity.
Qed.

Lemma drawn_facts (rng : sampler) (text : string) (k : Z) :
  0 <= k ->
  len (drawn rng text k) = Z.min k (len (content_words_of text))
  /\ NoDup (drawn rng text k)
  /\ (forall i, In i (drawn rng text k) ->
                (i < List.length (content_words_of text))%nat).
Proof.
  intros Hk. unfold drawn, len.
  set (n := List.length (content_words_of text)).
  assert (Hle : (Z.to_nat (Z.min k (Z.of_nat n)) <= n)%nat) by lia.
  split; [|split].
  - rewrite pick_length by exact Hle. lia.
  - now apply pick_nodup.
  - intros i. now apply pick_bound.
Qed.

(** ** The draw of [random.sample]

    [random.sample(population, k)] selects positions of the population
    with draws [j = randbelow(n - i)], uniform below [n - i], from a pool
    of the positions not yet selected:
<<
    pool = list(population)
    for i in range(k):
        j = randbelow(n - i)
        result[i] = pool[j]
        pool[j] = pool[n - i - 1]
>>
    This is CPython's code for populations of at most 21 elements (more
    for [k > 5]); above that size it draws positions below [n] and draws
    again when the position is already selected, so that each round again
    selects one of the remaining positions with equal probability.  The
    pool form is taken here for every size.  The pool below holds
    positions, and [choose] reads the population at the selected
    positions. *)

Section Draws.

Local Open Scope nat_scope.
Local Open Scope list_scope.

(** One round of the loop: [pool[j] = pool[n-i-1]], after which the last
    live entry of the pool is dropped.  The pool holds its live entries
    only. *)
Definition pool_step (pool : list nat) (j : nat) : list nat :=
  removelast (firstn j pool ++ last pool 0%nat :: skipn (S j) pool).

(** The selections for the draws [js], in the order of the draws:
    [result[i] = pool[j]]. *)
Fixpoint pool_draw (pool : list nat) (js : list nat) : list nat :=
  match js with
  | [] => []
  | j :: rest => nth j pool 0%nat :: pool_draw (pool_step pool j) rest
  end.

(** The draws [js] are possible for a pool of [m] entries: the draw of
    round [i] is below [m - i]. *)
Fixpoint fits (m : nat) (js : list nat) : bool :=
  match js with
  | [] => true
  | j :: rest => ((j <? m)%nat && fits (m - 1) rest)%bool
  end.

(** The sample space of [k] rounds on [m] entries: every possible sequence
    of draws, once.  The draws are uniform and independent, so the
    sequences are equally likely. *)
Fixpoint draws_space (m k : nat) : list (list nat) :=
  match k with
  | O => [[]]
  | S k' => flat_map (fun j => map (cons j) (draws_space (m - 1) k')) (seq 0 m)
  end.

(** [m * (m - 1) * ... * (m - k + 1)] *)
Fixpoint falling (m k : nat) : nat :=
  match k with
  | O => 1
  | S k' => m * falling (m - 1) k'
  end.

(** The positions selected from a population of [n] elements, one entry
    for each sequence of draws of the sample space. *)
Definition sample_outcomes (n k : nat) : list (list nat) :=
  map (pool_draw (seq 0 n)) (draws_space n k).

Lemma pool_step_last (l : list nat) (z : nat) :
  pool_step (l ++ [z]) (List.length l) = l
  /\ nth (List.length l) (l ++ [z]) 0%nat = z.
Proof.
  unfold pool_step. split; [|apply nth_middle].
  rewrite firstn_app, Nat.sub_diag, firstn_all, last_last.
  rewrite skipn_all2 by (rewrite length_app; cbn; lia).
  cbn [firstn]. rewrite app_nil_r. apply removelast_last.
Qed.

Lemma pool_step_inner (l : list nat) (z j : nat) :
  (j < List.length l)%nat ->
  pool_step (l ++ [z]) j = (firstn j l ++ z :: skipn (S j) l)%list
  /\ nth j (l ++ [z]) 0%nat = nth j l 0%nat.
Proof.
  intros Hj. unfold pool_step. split; [|now apply app_nth1].
  rewrite firstn_app, skipn_app, last_last.
  replace (j - List.length l)%nat with 0%nat by lia.
  replace (S j - List.length l)%nat with 0%nat by lia.
  change (firstn 0 [z]) with (@nil nat). change (skipn 0 [z]) with [z].
  rewrite app_nil_r.
  replace (firstn j l ++ z :: skipn (S j) l ++ [z])%list
    with ((firstn j l ++ z :: skipn (S j) l) ++ [z])%list
    by (now rewrite <- app_assoc).
  apply removelast_last.
Qed.

Lemma pool_step_perm (pool : list nat) (j : nat) :
  (j < List.length pool)%nat ->
  Permutation pool (nth j pool 0%nat :: pool_step pool j).
Proof.
  intros Hj.
  destruct (exists_last (l := pool)) as (l & z & ->).
  { intros ->. cbn in Hj. lia. }
  rewrite length_app in Hj. cbn [List.length] in Hj.
  destruct (Nat.eq_dec j (List.length l)) as [-> | Hne].
  - destruct (pool_step_last l z) as [-> ->].
    symmetry. apply Permutation_cons_append.
  - destruct (pool_step_inner l z j) as [-> ->]; [lia|].
    set (x := nth j l 0%nat).
    assert (El : l = (firstn j l ++ x :: skipn (S j) l)%list).
    { symmetry. apply firstn_skipn_middle.
      subst x. apply nth_error_nth'. lia. }
    rewrite El at 1.
    set (A := firstn j l). set (B := skipn (S j) l).
    rewrite <- Permutation_cons_append.
    rewrite <- !Permutation_middle.
    apply perm_swap.
Qed.

Lemma pool_step_length (pool : list nat) (j : nat) :
  (j < List.length pool)%nat ->
  List.length (pool_step pool j) = (List.length pool - 1)%nat.
Proof.
  intros Hj. apply pool_step_perm, Permutation_length in Hj.
  cbn [List.length] in Hj. lia.
Qed.

Lemma pool_step_facts (pool : list nat) (j : nat) :
  NoDup pool -> (j < List.length pool)%nat ->
  NoDup (pool_step pool j)
  /\ ~ In (nth j pool 0%nat) (pool_step pool j)
  /\ (forall x, In x pool <-> x = nth j pool 0%nat \/ In x (pool_step pool j)).
Proof.
  intros Hnd Hj. pose proof (pool_step_perm pool j Hj) as P.
  pose proof (Permutation_NoDup P Hnd) as Hnd'.
  inversion Hnd' as [|? ? Hnotin Hrest]; subst.
  split; [exact Hrest|]. split; [exact Hnotin|].
  intros x. split; intros H.
  - apply (Permutation_in _ P) in H. destruct H as [<- | H]; tauto.
  - apply (Permutation_in _ (Permutation_sym P)).
    destruct H as [-> | H]; [now left | now right].
Qed.

Lemma pool_draw_valid (js : list nat) (pool : list nat) :
  NoDup pool -> fits (List.length pool) js = true ->
  NoDup (pool_draw pool js)
  /\ (forall x, In x (pool_draw pool js) -> In x pool)
  /\ List.length (pool_draw pool js) = List.length js.
Proof.
  revert pool; induction js as [|j js IH]; intros pool Hnd Hf.
  - cbn. split; [constructor|]. split; [tauto | reflexivity].
  - cbn [fits] in Hf. apply andb_true_iff in Hf as [Hj Hf].
    apply Nat.ltb_lt in Hj.
    destruct (pool_step_facts pool j Hnd Hj) as (Hnd' & Hnotin & Hin).
    rewrite <- (pool_step_length pool j Hj) in Hf.
    destruct (IH _ Hnd' Hf) as (H1 & H2 & H3).
    cbn [pool_draw]. split; [|split].
    + constructor; [|exact H1]. intros H. apply Hnotin. now apply H2.
    + intros x [<- | H]; apply Hin; [now left | right; now apply H2].
    + cbn [List.length]. now rewrite H3.
Qed.

Lemma pool_draw_injective (js js' : list nat) (pool : list nat) :
  NoDup pool ->
  fits (List.length pool) js = true -> fits (List.length pool) js' = true ->
  pool_draw pool js = pool_draw pool js' -> js = js'.
Proof.
  revert js' pool; induction js as [|j js IH]; intros [|j' js'] pool Hnd Hf Hf' E;
    cbn [pool_draw] in E; try discriminate; [reflexivity|].
  cbn [fits] in Hf, Hf'.
  apply andb_true_iff in Hf as [Hj Hf]. apply Nat.ltb_lt in Hj.
  apply andb_true_iff in Hf' as [Hj' Hf']. apply Nat.ltb_lt in Hj'.
  injection E as Eh Et.
  assert (j = j') by (apply (proj1 (NoDup_nth pool 0%nat) Hnd); assumption).
  subst j'. f_equal.
  rewrite <- (pool_step_length pool j Hj) in Hf, Hf'.
  apply (IH js' (pool_step pool j)); trivial.
  now apply pool_step_facts.
Qed.

Lemma pool_draw_surjective (ps : list nat) (pool : list nat) :
  NoDup pool -> NoDup ps -> (forall x, In x ps -> In x pool) ->
  exists js, fits (List.length pool) js = true
             /\ List.length js = List.length ps
             /\ pool_draw pool js = ps.
Proof.
  revert pool; induction ps as [|x ps IH]; intros pool Hnd Hps Hin.
  - exists []. now repeat split.
  - inversion Hps as [|? ? Hx Hrest]; subst.
    destruct (In_nth pool x 0%nat (Hin x (or_introl eq_refl))) as (j & Hj & Ej).
    destruct (pool_step_facts pool j Hnd Hj) as (Hnd' & Hnotin & Hiff).
    destruct (IH (pool_step pool j) Hnd' Hrest) as (js & Hf & Hl & Hd).
    { intros y Hy. destruct (proj1 (Hiff y) (Hin y (or_intror Hy))) as [-> | H];
        [|exact H].
      rewrite Ej in Hy. contradiction. }
    exists (j :: js). cbn [fits List.length pool_draw].
    rewrite (pool_step_length pool j Hj) in Hf.
    rewrite Hf, Hl, Hd, Ej. apply Nat.ltb_lt in Hj. rewrite Hj.
    now repeat split.
Qed.

Lemma in_draws_space (k m : nat) (js : list nat) :
  In js (draws_space m k) <-> List.length js = k /\ fits m js = true.
Proof.
  revert m js; induction k as [|k IH]; intros m js; cbn [draws_space].
  - split.
    + intros [<- | []]. now split.
    + intros [H _]. destruct js; [now left | discriminate].
  - rewrite in_flat_map. split.
    + intros (j & Hj & Hin). apply in_map_iff in Hin as (r & <- & Hr).
      apply IH in Hr as [Hl Hf]. apply in_seq in Hj.
      cbn [List.length fits]. rewrite Hl, Hf.
      split; [reflexivity|]. apply andb_true_iff. split; [|reflexivity].
      apply Nat.ltb_lt. lia.
    + intros [Hl Hf]. destruct js as [|j r]; [discriminate|].
      cbn [List.length fits] in Hl, Hf.
      apply andb_true_iff in Hf as [Hj Hf]. apply Nat.ltb_lt in Hj.
      exists j. split; [apply in_seq; lia|].
      apply in_map_iff. exists r. split; [reflexivity|].
      apply IH. split; [lia | exact Hf].
Qed.

Lemma product_nodup (L : list (list nat)) (js : list nat) :
  NoDup L -> NoDup js ->
  NoDup (flat_map (fun j => map (cons j) L) js).
Proof.
  intros HL. induction js as [|j js IH]; intros Hjs; cbn [flat_map].
  - constructor.
  - inversion Hjs as [|? ? Hj Hrest]; subst.
    apply NoDup_app.
    + apply NoDup_map_NoDup_ForallPairs; [|exact HL].
      intros a b _ _ E. now injection E.
    + now apply IH.
    + intros a Ha Hb. apply in_map_iff in Ha as (r & <- & _).
      apply in_flat_map in Hb as (j' & Hj' & Hb).
      apply in_map_iff in Hb as (r' & E & _).
      injection E as -> _. contradiction.
Qed.

Lemma draws_space_nodup (k m : nat) : NoDup (draws_space m k).
Proof.
  revert m; induction k as [|k IH]; intros m; cbn [draws_space].
  - constructor; [intros [] | constructor].
  - apply product_nodup; [apply IH | apply seq_NoDup].
Qed.

Lemma draws_space_length (k m : nat) :
  List.length (draws_space m k) = falling m k.
Proof.
  revert m; induction k as [|k IH]; intros m; cbn [draws_space falling].
  - reflexivity.
  - rewrite (flat_map_constant_length (c := falling (m - 1) k)).
    + now rewrite length_seq.
    + intros j _. now rewrite length_map, IH.
Qed.

Lemma seq_pool (n : nat) :
  NoDup (seq 0 n) /\ List.length (seq 0 n) = n
  /\ (forall i, In i (seq 0 n) <-> (i < n)%nat).
Proof.
  split; [apply seq_NoDup|]. split; [apply length_seq|].
  intros i. rewrite in_seq. lia.
Qed.

Lemma sample_outcomes_facts (n k : nat) :
  NoDup (sample_outcomes n k)
  /\ (forall ps, In ps (sample_outcomes n k)
                 <-> NoDup ps /\ List.length ps = k
                     /\ forall i, In i ps -> (i < n)%nat)
  /\ List.length (sample_outcomes n k) = falling n k.
Proof.
  destruct (seq_pool n) as (Hnd & Hlen & Hin).
  unfold sample_outcomes. split; [|split].
  - apply NoDup_map_NoDup_ForallPairs; [|apply draws_space_nodup].
    intros js js' Hjs Hjs' E.
    apply in_draws_space in Hjs as [_ Hf], Hjs' as [_ Hf'].
    apply (pool_draw_injective js js' (seq 0 n)); trivial;
      now rewrite Hlen.
  - intros ps. rewrite in_map_iff. split.
    + intros (js & <- & Hjs). apply in_draws_space in Hjs as [Hl Hf].
      rewrite <- Hlen in Hf.
      destruct (pool_draw_valid js (seq 0 n) Hnd Hf) as (H1 & H2 & H3).
      split; [exact H1|]. split; [now rewrite H3|].
      intros i Hi. now apply Hin, H2.
    + intros (Hps & Hl & Hb).
      destruct (pool_draw_surjective ps (seq 0 n) Hnd Hps) as (js & Hf & Hl' & E).
      { intros i Hi. now apply Hin, Hb. }
      exists js. split; [exact E|].
      apply in_draws_space. rewrite Hlen in Hf. split; [lia | exact Hf].
  - now rewrite length_map, draws_space_length.
Qed.

End Draws.

(** The sampler whose draws are [js]; when the draws do not fit the
    request, the first [k] positions. *)
Definition draw_positions (js : list nat) (n k : nat) : list nat :=
  if (fits n js && Nat.eqb (List.length js) k)%bool
  then pool_draw (seq 0 n) js
  else seq 0 k.

Lemma draw_positions_valid (js : list nat) (n k : nat) :
  List.length (draw_positions js n k) = k
  /\ NoDup (draw_positions js n k)
  /\ (forall i, In i (draw_positions js n k) -> (i < n)%nat \/ (i < k)%nat).
Proof.
  unfold draw_positions.
  destruct (fits n js && Nat.eqb (List.length js) k)%bool eqn:E.
  - apply andb_true_iff in E as [Hf Hl]. apply Nat.eqb_eq in Hl.
    destruct (seq_pool n) as (Hnd & Hlen & Hin).
    rewrite <- Hlen in Hf.
    destruct (pool_draw_valid js (seq 0 n) Hnd Hf) as (H1 & H2 & H3).
    split; [now rewrite H3|]. split; [exact H1|].
    intros i Hi. left. now apply Hin, H2.
  - split; [apply length_seq|]. split; [apply seq_NoDup|].
    intros i Hi. apply in_seq in Hi. right. lia.
Qed.

Definition draw_sampler (js : list nat) : sampler.
Proof.
  refine {| pick := draw_positions js |}.
  - intros n k _. apply draw_positions_valid.
  - intros n k _. apply draw_positions_valid.
  - intros n k i Hk Hi.
    destruct (draw_positions_valid js n k) as (_ & _ & H).
    destruct (H i Hi); lia.
Defined.

Lemma draw_positions_fit (js : list nat) (n k : nat) :
  In js (draws_space n k) -> draw_positions js n k = pool_draw (seq 0 n) js.
Proof.
  intros H. apply in_draws_space in H as [Hl Hf].
  unfold draw_positions. now rewrite Hf, Hl, Nat.eqb_refl.
Qed.

Example sample_outcomes_sample :
  draws_space 3 2 = [[0; 0]; [0; 1]; [1; 0]; [1; 1]; [2; 0]; [2; 1]]%nat
  /\ sample_outcomes 3 2
     = [[0; 2]; [0; 1]; [1; 0]; [1; 2]; [2; 0]; [2; 1]]%nat.
Proof. split; reflexivity. Qed.

(** The number of content-word tokens, the population of the draw. *)
Definition content_count (text : string) : nat :=
  List.length (content_words_of text).

(** The number of blanks after the clamp, for a request of [k >= 0]. *)
Definition blank_count (text : string) (k : Z) : nat :=
  Z.to_nat (Z.min k (len (content_words_of text))).

(** What [generate_cloze_test] returns when [random.sample] selects the
    given positions of the content-word list. *)
Definition cloze_of (text : string) (positions : list nat)
    : exc (string * list string) :=
  Ok (blank_out (tokenize_text text)
                (choose (content_words_of text) positions),
      choose (content_words_of text) positions).

Lemma generate_cloze_test_draws (text : string) (k : Z) (js : list nat) :
  0 <= k ->
  In js (draws_space (content_count text) (blank_count text k)) ->
  generate_cloze_test (draw_sampler js) text k
  = cloze_of text (pool_draw (seq 0 (content_count text)) js).
Proof.
  intros Hk Hjs. rewrite generate_cloze_test_returns by exact Hk.
  unfold cloze_of, drawn. cbn [pick draw_sampler].
  fold (content_count text). fold (blank_count text k).
  now rewrite draw_positions_fit.
Qed.

(** The six equally likely draws on "the cat sat quickly", whose content
    words are "cat", "sat" and "quickly", for two blanks. *)
Example cloze_draws_sample :
  map (fun draws =>
         generate_cloze_test (draw_sampler draws) "the cat sat quickly" 2)
      (draws_space 3 2)
  = [Ok ("the _____ sat _____", ["cat"; "quickly"]);
     Ok ("the _____ _____ quickly", ["cat"; "sat"]);
     Ok ("the _____ _____ quickly", ["sat"; "cat"]);
     Ok ("the cat _____ _____", ["sat"; "quickly"]);
     Ok ("the _____ sat _____", ["quickly"; "cat"]);
     Ok ("the cat _____ _____", ["quickly"; "sat"])].
Proof. reflexivity. Qed.

(** C3, as the code has it: for a request of [k >= 0] blanks the blanked
    words are the content-word tokens (tokens tagged NN, VB, VBD, VBG or
    RB, a repeated word once per occurrence) at pairwise distinct
    positions of the content-word list, and their number is the minimum
    of [k] and the number of content-word tokens.  The draw is uniform
    and without replacement on the positions of that list: over the
    equally likely sequences of draws of [random.sample], each listed
    once in [draws_space], the function returns the cloze test of the
    selected positions, and every ordered selection of [min(k, n)]
    pairwise distinct positions below [n], the number of content-word
    tokens, is selected by exactly one of the
    [n * (n - 1) * ... * (n - min(k, n) + 1)] sequences. *)
Theorem cloze_samples_content_word_tokens (rng : sampler) (text : string)
    (k : Z) :
  0 <= k ->
  (exists cloze_text blanked positions,
     generate_cloze_test rng text k = Ok (cloze_text, blanked)
     /\ blanked = choose (content_words_of text) positions
     /\ NoDup positions
     /\ (forall i, In i positions ->
                   (i < List.length (content_words_of text))%nat)
     /\ (forall word, In word blanked -> In word (content_words_of text))
     /\ len blanked = Z.min k (len (content_words_of text)))
  /\ map (fun draws => generate_cloze_test (draw_sampler draws) text k)
         (draws_space (content_count text) (blank_count text k))
     = map (cloze_of text)
           (sample_outcomes (content_count text) (blank_count text k))
  /\ NoDup (draws_space (content_count text) (blank_count text k))
  /\ (forall draws,
        In draws (draws_space (content_count text) (blank_count text k))
        <-> List.length draws = blank_count text k
            /\ fits (content_count text) draws = true)
  /\ NoDup (sample_outcomes (content_count text) (blank_count text k))
  /\ (forall positions,
        In positions
           (sample_outcomes (content_count text) (blank_count text k))
        <-> NoDup positions
            /\ List.length positions = blank_count text k
            /\ forall i, In i positions -> (i < content_count text)%nat)
  /\ List.length (sample_outcomes (content_count text) (blank_count text k))
     = falling (content_count text) (blank_count text k)
  /\ Z.of_nat (blank_count text k) = Z.min k (len (content_words_of text)).
Proof.
  intros Hk.
  destruct (drawn_facts rng text k Hk) as (Hlen & Hnd & Hb).
  destruct (sample_outcomes_facts (content_count text) (blank_count text k))
    as (Hs1 & Hs2 & Hs3).
  split; [|split; [|split; [|split; [|split; [|split; [|split]]]]]].
  - eexists _, _, (drawn rng text k).
    split; [now apply generate_cloze_test_returns|].
    split; [reflexivity|]. split; [exact Hnd|]. split; [exact Hb|].
    split.
    + intros word. apply choose_incl.
    + unfold len in *. now rewrite choose_length.
  - unfold sample_outcomes. rewrite map_map. apply map_ext_in.
    intros js Hjs. now apply generate_cloze_test_draws.
  - apply draws_space_nodup.
  - intros draws. apply in_draws_space.
  - exact Hs1.
  - exact Hs2.
  - exact Hs3.
  - unfold blank_count. pose proof (len_nonneg (content_words_of text)). lia.
Qed.

Lemma cloze_samples_content_word_tokens_witness :
  0 <= 2
  /\ (exists cloze_text blanked positions,
        generate_cloze_test last_positions "the cat sat quickly" 2
        = Ok (cloze_text, blanked)
        /\ blanked = choose (content_words_of "the cat sat quickly") positions
        /\ NoDup positions
        /\ (forall i, In i positions ->
              (i < List.length (content_words_of "the cat sat quickly"))%nat)
        /\ (forall word, In word blanked ->
              In word (content_words_of "the cat sat quickly"))
        /\ len blanked
           = Z.min 2 (len (content_words_of "the cat sat quickly")))
  /\ map (fun draws =>
            generate_cloze_test (draw_sampler draws) "the cat sat quickly" 2)
         (draws_space (content_count "the cat sat quickly")
                      (blank_count "the cat sat quickly" 2))
     = map (cloze_of "the cat sat quickly")
           (sample_outcomes (content_count "the cat sat quickly")
                            (blank_count "the cat sat quickly" 2))
  /\ NoDup (draws_space (content_count "the cat sat quickly")
                        (blank_count "the cat sat quickly" 2))
  /\ (forall draws,
        In draws (draws_space (content_count "the cat sat quickly")
                              (blank_count "the cat sat quickly" 2))
        <-> List.length draws = blank_count "the cat sat quickly" 2
            /\ fits (content_count "the cat sat quickly") draws = true)
  /\ NoDup (sample_outcomes (content_count "the cat sat quickly")
                            (blank_count "the cat sat quickly" 2))
  /\ (forall positions,
        In positions
           (sample_outcomes (content_count "the cat sat quickly")
                            (blank_count "the cat sat quickly" 2))
        <-> NoDup positions
            /\ List.length positions = blank_count "the cat sat quickly" 2
            /\ forall i, In i positions ->
                         (i < content_count "the cat sat quickly")%nat)
  /\ List.length (sample_outcomes (content_count "the cat sat quickly")
                                  (blank_count "the cat sat quickly" 2))
     = falling (content_count "the cat sat quickly")
               (blank_count "the cat sat quickly" 2)
  /\ Z.of_nat (blank_count "the cat sat quickly" 2)
     = Z.min 2 (len (content_words_of "the cat sat quickly")).
Proof.
  split; [lia|].
  apply (cloze_samples_content_word_tokens last_positions
           "the cat sat quickly" 2).
  lia.
Defined.

(** C3, as stated, fails: in "cat cat" the content word "cat" occurs twice
    and is drawn twice, so two words are blanked where the text has one
    distinct content word; and a request of -1 blanks returns no list. *)
Lemma cloze_draws_repeated_word :
  generate_cloze_test first_positions "cat cat" 2
  = Ok ("_____ _____", ["cat"; "cat"])
  /\ distinct (content_words_of "cat cat") = ["cat"]
  /\ len ["cat"; "cat"] <> Z.min 2 (len (distinct (content_words_of "cat cat")))
  /\ map (fun draws => generate_cloze_test (draw_sampler draws) "cat cat" 2)
         (draws_space 2 2)
     = [Ok ("_____ _____", ["cat"; "cat"]); Ok ("_____ _____", ["cat"; "cat"])]
  /\ generate_cloze_test first_positions "cat cat" (-1) = Raise ValueError.
Proof.
  split; [reflexivity|]. split; [reflexivity|].
  split; [vm_compute; discriminate|]. split; reflexivity.
Qed.

Lemma pick_none (rng : sampler) (n : nat) : pick rng n 0 = [].
Proof.
  pose proof (pick_length rng n 0 (Nat.le_0_l n)) as H.
  now destruct (pick rng n 0).
Qed.

Lemma blank_out_none (words : list string) : blank_out words [] = join " " words.
Proof. unfold blank_out. cbn. now rewrite map_id. Qed.

(** C6, as the code has it: a request of zero blanks returns the tokens
    joined by spaces and no blanked word; a request above the number of
    content-word tokens is lowered to it; a request below zero is not
    raised to zero, and [random.sample] rejects it. *)
Theorem cloze_blank_count_bounds (rng : sampler) (text : string) (k : Z) :
  generate_cloze_test rng text 0 = Ok (join " " (tokenize_text text), [])
  /\ (len (content_words_of text) < k ->
      generate_cloze_test rng text k
      = generate_cloze_test rng text (len (content_words_of text)))
  /\ (k < 0 -> generate_cloze_test rng text k = Raise ValueError).
Proof.
  split; [|split].
  - rewrite generate_cloze_test_returns by lia.
    unfold drawn. rewrite Z.min_l by apply len_nonneg.
    cbn [Z.to_nat]. rewrite pick_none. cbn [choose flat_map].
    now rewrite blank_out_none.
  - intros Hk. unfold generate_cloze_test.
    destruct (Z.ltb_spec (len (content_words_of text)) k); [|lia].
    now rewrite Z.ltb_irrefl.
  - intros Hk. unfold generate_cloze_test.
    pose proof (len_nonneg (content_words_of text)).
    destruct (Z.ltb_spec (len (content_words_of text)) k); [lia|].
    now rewrite random_sample_negative.
Qed.

(** C6, as stated, fails: a negative request is not clamped. *)
Lemma cloze_negative_request_raises :
  generate_cloze_test first_positions "the cat sat" (-1) = Raise ValueError
  /\ content_words_of "the cat sat" = ["cat"; "sat"].
Proof. split; reflexivity. Qed.

(** ** Syllable counts of the tokens *)

(** The syllable count of a word, 0 standing for the exception. *)
Definition syllables (word : string) : Z :=
  match count_syllables word with
  | Ok n => n
  | Raise _ => 0
  end.

Lemma count_syllables_returns (word : string) :
  word <> "" -> count_syllables word = Ok (syllables word).
Proof.
  intros Hne. unfold syllables.
  destruct word as [|a r]; [contradiction|]. reflexivity.
Qed.

Lemma mapM_count_syllables (words : list string) :
  (forall w, In w words -> w <> "") ->
  mapM count_syllables words = Ok (map syllables words).
Proof.
  induction words as [|w words IH]; intros Hne; [reflexivity|].
  cbn [mapM map]. rewrite count_syllables_returns by (apply Hne; now left).
  cbn [bind]. rewrite IH by (intros v Hv; apply Hne; now right).
  reflexivity.
Qed.

Lemma filterM_count_syllables (p : Z -> bool) (words : list string) :
  (forall w, In w words -> w <> "") ->
  filterM (fun word => n <- count_syllables word ;; Ok (p n)) words
  = Ok (filter (fun word => p (syllables word)) words).
Proof.
  induction words as [|w words IH]; intros Hne; [reflexivity|].
  cbn [filterM filter]. rewrite count_syllables_returns by (apply Hne; now left).
  cbn [bind]. rewrite IH by (intros v Hv; apply Hne; now right).
  reflexivity.
Qed.

(** ** Signs of floats *)

(** [x] is NaN or has the sign bit [s]. *)
Definition has_sign (s : bool) (x : float) : Prop :=
  match x with
  | S754_nan => True
  | S754_zero s' | S754_infinity s' | S754_finite s' _ _ => s' = s
  end.

Lemma binary_round_aux_sign (s : bool) (m e : Z) (l : location) :
  has_sign s (binary_round_aux prec emax s m e l).
Proof.
  unfold binary_round_aux.
  destruct (shr_fexp prec emax m e l) as [mrs' e'].
  destruct (shr_fexp prec emax _ e' loc_Exact) as [mrs'' e''].
  destruct (shr_m mrs''); [reflexivity | | exact I].
  destruct (Z.leb _ _); reflexivity.
Qed.

Lemma of_int_sign (z : Z) : 0 <= z -> has_sign false (of_int z).
Proof.
  intros Hz. unfold of_int, binary_normalize.
  destruct z as [|p|p]; [reflexivity| |lia].
  unfold binary_round. destruct (shl_align _ _ _) as [mz ez].
  apply binary_round_aux_sign.
Qed.

Lemma ratio_sign (a b : Z) : 0 <= a -> 0 < b -> has_sign false (ratio a b).
Proof.
  intros Ha Hb. unfold ratio.
  destruct a as [|p|p]; [|clear Ha|lia].
  - cbn. now destruct (Z.ltb_spec b 0); [lia|].
  - destruct (Z.ltb_spec b 0); [lia|].
    unfold fdiv, SFdiv. cbn [Z.ltb Z.compare xorb].
    destruct (SFdiv_core_binary _ _ _ _ _ _) as [[mz ez] lz].
    apply binary_round_aux_sign.
Qed.

Lemma fmul_sign (x y : float) :
  has_sign false x -> has_sign false y -> has_sign false (fmul x y).
Proof.
  unfold fmul, SFmul.
  destruct x as [sx|sx| |sx mx ex], y as [sy|sy| |sy my ey]; cbn;
    intros Hx Hy; subst; trivial.
  apply (binary_round_aux_sign false).
Qed.

Lemma py_sqrt_returns (x : float) :
  has_sign false x -> py_sqrt x = Ok (SFsqrt prec emax x).
Proof.
  unfold py_sqrt. destruct x as [s|s| |s m e]; cbn; intros H; subst; trivial.
Qed.

(** ** Quotients of positive integers are finite

    The quotient of two positive integers, the dividend below [2^1023],
    neither overflows nor is NaN: the rounding of a mantissa [m] at the
    exponent [e] stays below [2^1024] when [m * 2^e] does. *)

Lemma digits2_lower (p : positive) :
  2 ^ (Z.pos (digits2_pos p) - 1) <= Z.pos p.
Proof.
  induction p as [p IH | p IH |]; cbn [digits2_pos].
  - rewrite Pos2Z.inj_succ.
    replace (Z.succ (Z.pos (digits2_pos p)) - 1)
      with (Z.succ (Z.pos (digits2_pos p) - 1)) by lia.
    rewrite Z.pow_succ_r by lia. lia.
  - rewrite Pos2Z.inj_succ.
    replace (Z.succ (Z.pos (digits2_pos p)) - 1)
      with (Z.succ (Z.pos (digits2_pos p) - 1)) by lia.
    rewrite Z.pow_succ_r by lia. lia.
  - cbn. lia.
Qed.

Lemma digits2_upper (p : positive) : Z.pos p < 2 ^ Z.pos (digits2_pos p).
Proof.
  induction p as [p IH | p IH |]; cbn [digits2_pos].
  - rewrite Pos2Z.inj_succ, Z.pow_succ_r by lia. lia.
  - rewrite Pos2Z.inj_succ, Z.pow_succ_r by lia. lia.
  - cbn. lia.
Qed.

Lemma Zdigits2_nonneg (m : Z) : 0 <= Zdigits2 m.
Proof. destruct m; cbn; lia. Qed.

Lemma Zdigits2_upper (m : Z) : 0 <= m -> m < 2 ^ Zdigits2 m.
Proof.
  intros H. destruct m as [|p|p]; [cbn; lia | apply digits2_upper | lia].
Qed.

Lemma Zdigits2_bound (m k : Z) : 0 <= k -> 0 <= m < 2 ^ k -> Zdigits2 m <= k.
Proof.
  intros Hk [H0 Hm]. destruct m as [|p|p]; [exact Hk | | lia].
  cbn [Zdigits2]. pose proof (digits2_lower p) as Hl.
  destruct (Z_le_gt_dec (Z.pos (digits2_pos p)) k) as [Hle | Hgt]; [exact Hle|].
  assert (2 ^ k <= 2 ^ (Z.pos (digits2_pos p) - 1))
    by (apply Z.pow_le_mono_r; lia).
  lia.
Qed.

Lemma shr_1_m (r : shr_record) :
  0 <= shr_m r -> shr_m (shr_1 r) = shr_m r / 2.
Proof.
  destruct r as [m rb sb]. cbn [shr_m]. intros H.
  destruct m as [|[p|p|]|p]; cbn [shr_1 shr_m].
  - reflexivity.
  - apply (Z.div_unique _ _ _ 1); lia.
  - apply (Z.div_unique _ _ _ 0); lia.
  - reflexivity.
  - lia.
Qed.

Lemma iter_shr_1_m (n : positive) (r : shr_record) :
  0 <= shr_m r -> shr_m (iter_pos shr_1 n r) = shr_m r / 2 ^ Z.pos n.
Proof.
  revert r; induction n as [n IH | n IH |]; intros r H; cbn [iter_pos].
  - assert (P : 0 < 2 ^ Z.pos n) by (apply Z.pow_pos_nonneg; lia).
    assert (H1 : 0 <= shr_m (shr_1 r))
      by (rewrite shr_1_m by exact H; apply Z.div_pos; lia).
    assert (H2 : 0 <= shr_m (iter_pos shr_1 n (shr_1 r)))
      by (rewrite IH by exact H1; apply Z.div_pos; lia).
    rewrite IH by exact H2. rewrite IH by exact H1. rewrite shr_1_m by exact H.
    rewrite !Z.div_div by lia.
    assert (E : 2 ^ Z.pos n~1 = 2 * 2 ^ Z.pos n * 2 ^ Z.pos n).
    { rewrite Pos2Z.inj_xI.
      replace (2 * Z.pos n + 1) with (1 + Z.pos n + Z.pos n) by lia.
      rewrite !Z.pow_add_r by lia. reflexivity. }
    rewrite E. f_equal. lia.
  - assert (P : 0 < 2 ^ Z.pos n) by (apply Z.pow_pos_nonneg; lia).
    assert (H1 : 0 <= shr_m (iter_pos shr_1 n r))
      by (rewrite IH by exact H; apply Z.div_pos; lia).
    rewrite IH by exact H1. rewrite IH by exact H.
    rewrite Z.div_div by lia.
    assert (E : 2 ^ Z.pos n~0 = 2 ^ Z.pos n * 2 ^ Z.pos n).
    { rewrite <- Z.pow_add_r by lia. f_equal. lia. }
    now rewrite E.
  - rewrite shr_1_m by exact H. reflexivity.
Qed.

Lemma fexp64_eq (x : Z) : fexp prec emax x = Z.max (x - 53) (-1074).
Proof. reflexivity. Qed.

(** What [shr_fexp] gives on a mantissa that is not negative. *)
Lemma shr_fexp_spec (m e : Z) (l : location) :
  0 <= m ->
  let '(r, e') := shr_fexp prec emax m e l in
  0 <= shr_m r
  /\ ((shr_m r = m /\ e' = e)
      \/ (e < e' /\ e' = fexp prec emax (Zdigits2 m + e)
          /\ shr_m r = m / 2 ^ (e' - e))).
Proof.
  intros Hm. unfold shr_fexp, shr.
  assert (Hrec : shr_m (shr_record_of_loc m l) = m)
    by (destruct l as [|[]]; reflexivity).
  destruct (fexp prec emax (Zdigits2 m + e) - e) as [|n|n] eqn:En.
  - rewrite Hrec. split; [exact Hm | left; now split].
  - assert (P : 0 < 2 ^ Z.pos n) by (apply Z.pow_pos_nonneg; lia).
    rewrite iter_shr_1_m by (rewrite Hrec; exact Hm). rewrite Hrec.
    split; [apply Z.div_pos; lia|]. right.
    split; [lia|]. split; [lia|]. f_equal. f_equal. lia.
  - rewrite Hrec. split; [exact Hm | left; now split].
Qed.

Lemma round_nearest_even_spec (m : Z) (l : location) :
  round_nearest_even m l = m \/ round_nearest_even m l = m + 1.
Proof.
  unfold round_nearest_even. destruct l as [|[]]; auto.
  destruct (Z.even m); auto.
Qed.

(** A shifted mantissa and its exponent keep the magnitude bound. *)
Lemma shifted_digits (m e e' B : Z) :
  0 <= m -> e < e' -> Zdigits2 m + e <= B -> e' <= B ->
  Zdigits2 (m / 2 ^ (e' - e)) + e' <= B.
Proof.
  intros Hm He HB He'.
  pose proof (Zdigits2_upper m Hm) as Hu.
  pose proof (Zdigits2_nonneg m) as Hd.
  assert (P : 0 < 2 ^ (e' - e)) by (apply Z.pow_pos_nonneg; lia).
  destruct (Z_le_gt_dec (e' - e) (Zdigits2 m)) as [Hle | Hgt].
  - assert (Hq : m / 2 ^ (e' - e) < 2 ^ (Zdigits2 m - (e' - e))).
    { apply Z.div_lt_upper_bound; [lia|].
      rewrite <- Z.pow_add_r by lia.
      replace (e' - e + (Zdigits2 m - (e' - e))) with (Zdigits2 m) by lia.
      exact Hu. }
    assert (Zdigits2 (m / 2 ^ (e' - e)) <= Zdigits2 m - (e' - e)).
    { apply Zdigits2_bound; [lia|]. split; [apply Z.div_pos; lia | exact Hq]. }
    lia.
  - assert (Hz : m / 2 ^ (e' - e) = 0).
    { apply Z.div_small. split; [exact Hm|].
      assert (2 ^ Zdigits2 m <= 2 ^ (e' - e)) by (apply Z.pow_le_mono_r; lia).
      lia. }
    rewrite Hz. cbn [Zdigits2]. lia.
Qed.

(** [x] is a zero or a finite number with the sign bit clear: neither NaN
    nor an infinity. *)
Definition ordinary (x : float) : Prop :=
  match x with
  | S754_zero s | S754_finite s _ _ => s = false
  | _ => False
  end.

Lemma binary_round_aux_ordinary (m e : Z) (l : location) :
  0 <= m -> Zdigits2 m + e <= 1023 -> e <= 971 ->
  ordinary (binary_round_aux prec emax false m e l).
Proof.
  intros Hm HB He. unfold binary_round_aux.
  pose proof (shr_fexp_spec m e l Hm) as S1.
  destruct (shr_fexp prec emax m e l) as [r1 e1].
  destruct S1 as [H1 S1].
  assert (Hb1 : Zdigits2 (shr_m r1) + e1 <= 1023 /\ e1 <= 971).
  { destruct S1 as [[-> ->] | (Hlt & E1 & ->)]; [now split|].
    rewrite fexp64_eq in E1.
    split; [apply shifted_digits; lia | lia]. }
  destruct Hb1 as [Hb1 He1].
  set (m1 := round_nearest_even (shr_m r1) (loc_of_shr_record r1)).
  assert (Hm1 : 0 <= m1 /\ Zdigits2 m1 <= Zdigits2 (shr_m r1) + 1).
  { pose proof (Zdigits2_upper (shr_m r1) H1) as Hu.
    pose proof (Zdigits2_nonneg (shr_m r1)) as Hd.
    assert (Hcase : m1 = shr_m r1 \/ m1 = shr_m r1 + 1)
      by apply round_nearest_even_spec.
    split; [lia|]. apply Zdigits2_bound; [lia|].
    rewrite Z.pow_add_r by lia. change (2 ^ 1) with 2. lia. }
  destruct Hm1 as [Hm1 Hd1].
  pose proof (shr_fexp_spec m1 e1 loc_Exact Hm1) as S2.
  destruct (shr_fexp prec emax m1 e1 loc_Exact) as [r2 e2].
  destruct S2 as [H2 S2].
  assert (He2 : e2 <= 971).
  { destruct S2 as [[_ ->] | (_ & E2 & _)]; [exact He1|].
    rewrite fexp64_eq in E2. lia. }
  destruct (shr_m r2) as [|p|p]; [reflexivity | | lia].
  assert (Hle : (e2 <=? emax - prec) = true) by (apply Z.leb_le; unfold emax, prec; lia).
  rewrite Hle. reflexivity.
Qed.

Lemma div_core_spec (a b : positive) :
  let '(q, e, l) := SFdiv_core_binary prec emax (Z.pos a) 0 (Z.pos b) 0 in
  0 <= q /\ e <= 0 /\ Zdigits2 q + e <= Zdigits2 (Z.pos a).
Proof.
  unfold SFdiv_core_binary.
  set (e' := Z.min _ (0 - 0)).
  assert (He : e' <= 0) by (subst e'; apply Z.le_min_r).
  set (m' := match 0 - 0 - e' with Z.pos _ => _ | _ => _ end).
  assert (Hm : m' = Z.pos a * 2 ^ (- e')).
  { subst m'. destruct (0 - 0 - e') as [|s|s] eqn:Es.
    - replace (- e') with 0 by lia. rewrite Z.pow_0_r. lia.
    - rewrite Z.shiftl_mul_pow2 by lia. f_equal. f_equal. lia.
    - lia. }
  destruct (Z.div_eucl m' (Z.pos b)) as [q r] eqn:E.
  assert (Hq : q = m' / Z.pos b) by (unfold Z.div; now rewrite E).
  assert (Hp : 0 < 2 ^ (- e')) by (apply Z.pow_pos_nonneg; lia).
  assert (H0 : 0 <= m') by (rewrite Hm; nia).
  assert (Hq0 : 0 <= q) by (rewrite Hq; apply Z.div_pos; lia).
  assert (Hqm : q <= m').
  { rewrite Hq. apply Z.div_le_upper_bound; [lia|]. nia. }
  repeat split; trivial.
  assert (Hd : Zdigits2 q <= Zdigits2 (Z.pos a) - e').
  { apply Zdigits2_bound.
    - pose proof (Zdigits2_nonneg (Z.pos a)). lia.
    - split; [trivial|].
      replace (Zdigits2 (Z.pos a) - e') with (Zdigits2 (Z.pos a) + - e') by lia.
      rewrite Z.pow_add_r by (pose proof (Zdigits2_nonneg (Z.pos a)); lia).
      pose proof (Zdigits2_upper (Z.pos a) ltac:(lia)). nia. }
  lia.
Qed.

Lemma ratio_ordinary (a b : Z) :
  0 <= a < 2 ^ 1023 -> 0 < b -> ordinary (ratio a b).
Proof.
  intros Ha Hb. unfold ratio.
  destruct a as [|p|p]; [| |lia].
  - cbn. now destruct (Z.ltb_spec b 0); [lia|].
  - destruct b as [|b|b]; [lia| |lia].
    unfold fdiv, SFdiv. cbn [Z.ltb Z.compare xorb Z.abs Z.to_pos].
    pose proof (div_core_spec p b) as H.
    destruct (SFdiv_core_binary _ _ _ _ _ _) as [[mz ez] lz].
    destruct H as (H0 & He & Hd).
    apply binary_round_aux_ordinary; [trivial| |lia].
    assert (Zdigits2 (Z.pos p) <= 1023) by (apply Zdigits2_bound; lia).
    lia.
Qed.

Lemma fmul_zero_ordinary (x : float) :
  ordinary x -> fmul (S754_zero false) x = S754_zero false.
Proof. destruct x as [s|s| |s m e]; cbn; intros H; subst; easy. Qed.

(** ** SMOG *)

(** The number of tokens of at least three syllables. *)
Definition polysyllable_count (text : string) : Z :=
  len (filter (fun word => 3 <=? syllables word) (tokenize_text text)).

(** [round(1.0430 * sqrt(P * (30 / S)) + 3.1291, 1)] in binary64. *)
Definition smog_formula (P S : Z) : float :=
  round1 (fadd (fmul (ratio 10430 10000)
                     (SFsqrt prec emax (fmul (of_int P) (ratio 30 S))))
               (ratio 31291 10000)).

Lemma smog_index_value (text : string) :
  calculate_smog_index text
  = Ok (if len (sentence_tokenize text) <? 30 then Int 0
        else Flt (smog_formula (polysyllable_count text)
                               (len (sentence_tokenize text)))).
Proof.
  unfold calculate_smog_index.
  rewrite filterM_count_syllables by apply tokens_nonempty.
  cbn [bind].
  destruct (Z.ltb_spec (len (sentence_tokenize text)) 30) as [Hlt | Hge];
    [reflexivity|].
  rewrite truediv_int by lia. cbn [bind].
  unfold PyNum.sqrt. cbn [PyNum.mul to_float].
  rewrite py_sqrt_returns.
  - reflexivity.
  - apply fmul_sign; [apply of_int_sign, len_nonneg | apply ratio_sign; lia].
Qed.

(** Without a word of three syllables the product under the root is
    [0 * (30 / S)], a positive zero whatever the number [S] of sentences,
    and the rounded index is the float 3.1. *)
Lemma smog_formula_without_polysyllables (S : Z) :
  0 < S -> smog_formula 0 S = ratio 31 10.
Proof.
  intros HS. unfold smog_formula.
  change (of_int 0) with (S754_zero false).
  rewrite fmul_zero_ordinary.
  - vm_compute. reflexivity.
  - apply ratio_ordinary; [|exact HS].
    split; [lia | vm_compute; reflexivity].
Qed.

(** C4, as the code has it: the SMOG index is 0 when there are fewer than
    30 sentences, whatever the word count; from 30 sentences on it is
    [1.0430 * sqrt(P * (30 / S)) + 3.1291] rounded to one decimal, [P]
    the number of tokens of at least three syllables and [S] the number of
    sentences, also when the text has no word: then [P = 0] and the index
    is the float 3.1, for every number of sentences from 30 on. *)
Theorem smog_index_by_sentence_count (text : string) :
  (len (sentence_tokenize text) < 30 ->
   calculate_smog_index text = Ok (Int 0))
  /\ (30 <= len (sentence_tokenize text) ->
      calculate_smog_index text
      = Ok (Flt (smog_formula (polysyllable_count text)
                              (len (sentence_tokenize text)))))
  /\ (30 <= len (sentence_tokenize text) ->
      len (tokenize_text text) = 0 ->
      calculate_smog_index text
      = Ok (Flt (smog_formula 0 (len (sentence_tokenize text))))
      /\ calculate_smog_index text = Ok (lit 31 10))
  /\ (forall S, 30 <= S -> smog_formula 0 S = ratio 31 10).
Proof.
  rewrite smog_index_value.
  split; [|split; [|split]].
  - intros H. now destruct (Z.ltb_spec (len (sentence_tokenize text)) 30); [|lia].
  - intros H. now destruct (Z.ltb_spec (len (sentence_tokenize text)) 30); [lia|].
  - intros H Hw. destruct (Z.ltb_spec (len (sentence_tokenize text)) 30); [lia|].
    unfold polysyllable_count. rewrite (len_zero_nil _ Hw).
    cbn [filter len List.length Z.of_nat].
    split; [reflexivity|].
    rewrite smog_formula_without_polysyllables by lia. reflexivity.
  - intros S HS. apply smog_formula_without_polysyllables. lia.
Qed.

(** Thirty sentences, each a lone full stop, and no word. *)
Definition thirty_full_stops : string :=
  ". . . . . . . . . . . . . . . . . . . . . . . . . . . . . .".

(** C4, as stated, fails: a text of 30 sentences and no word has the SMOG
    index 3.1, not 0. *)
Lemma smog_without_words_is_not_zero :
  len (tokenize_text thirty_full_stops) = 0
  /\ len (sentence_tokenize thirty_full_stops) = 30
  /\ calculate_smog_index thirty_full_stops = Ok (lit 31 10)
  /\ PyNum.eq (lit 31 10) (Int 0) = false.
Proof. repeat split; vm_compute; reflexivity. Qed.

(** ** The empty text *)

(** C1: on the empty text the readability calculators take their guard
    and return 0, but the type-token ratio divides the number of distinct
    tokens by the number of tokens, which is 0, and the exception leaves
    the analysis function. *)
Theorem analyze_vocabulary_empty_text_raises (rng : sampler) :
  tokenize_text "" = []
  /\ calculate_flesch_kincaid_grade "" = Ok (Int 0)
  /\ calculate_flesch_reading_ease "" = Ok (Int 0)
  /\ calculate_gunning_fog_index "" = Ok (Int 0)
  /\ calculate_smog_index "" = Ok (Int 0)
  /\ calculate_ttr "" = Raise ZeroDivisionError
  /\ analyze_vocabulary rng "" = Raise ZeroDivisionError.
Proof. repeat split; reflexivity. Qed.

(** ** The tag JJ *)

Lemma pos_tag_not_jj (word : string) : pos_tag word <> "JJ".
Proof.
  unfold pos_tag.
  repeat match goal with
         | |- context [if ?b then _ else _] => destruct b
         end; discriminate.
Qed.

Section CounterKeys.

Context {K : Type} (keq : K -> K -> bool).
Hypothesis keq_eq : forall a b, keq a b = true -> a = b.

Lemma counter_incr_keys (k k' : K) (c : counter K) :
  In k' (map fst (counter_incr keq k c)) -> k' = k \/ In k' (map fst c).
Proof.
  induction c as [|[k0 n] c IH]; cbn [counter_incr].
  - cbn. intuition.
  - destruct (keq k k0); cbn [map fst In]; [tauto|].
    intros [H | H]; [tauto|]. apply IH in H. tauto.
Qed.

Lemma counter_fold_keys (l : list K) (c : counter K) (k' : K) :
  In k' (map fst (fold_left (fun c k => counter_incr keq k c) l c)) ->
  In k' l \/ In k' (map fst c).
Proof.
  revert c; induction l as [|k l IH]; intros c; cbn [fold_left].
  - tauto.
  - intros H. apply IH in H as [H | H]; [left; now right|].
    apply counter_incr_keys in H as [-> | H]; [left; now left | now right].
Qed.

Lemma counter_get_missing (c : counter K) (k : K) (d : Z) :
  ~ In k (map fst c) -> counter_get keq c k d = d.
Proof.
  induction c as [|[k0 n] c IH]; cbn [counter_get map fst In]; intros H.
  - reflexivity.
  - destruct (keq k k0) eqn:E.
    + apply keq_eq in E. subst. tauto.
    + apply IH. tauto.
Qed.

Lemma counter_of_missing (l : list K) (k : K) (d : Z) :
  ~ In k l -> counter_get keq (counter_of keq l) k d = d.
Proof.
  intros H. apply counter_get_missing. intros Hin.
  apply counter_fold_keys in Hin as [Hin | []]. tauto.
Qed.

End CounterKeys.

Lemma tagger_never_jj (text word tag : string) :
  In (word, tag) (simple_pos_tagger text) -> tag <> "JJ".
Proof.
  unfold simple_pos_tagger. rewrite in_map_iff.
  intros (w & E & _). injection E as _ <-. apply pos_tag_not_jj.
Qed.

Lemma jj_count_zero (text : string) :
  counter_get String.eqb (calculate_pos_distribution text) "JJ" 0 = 0.
Proof.
  unfold calculate_pos_distribution.
  apply counter_of_missing; [intros a b; apply String.eqb_eq|].
  rewrite in_map_iff. intros ([w t] & E & Hin). cbn in E. subst t.
  now apply tagger_never_jj in Hin.
Qed.

Lemma tag_term_value (text tag : string) :
  tokenize_text text <> [] ->
  tag_term (calculate_pos_distribution text) tag text
  = Ok (Flt (fmul (ratio (counter_get String.eqb
                            (calculate_pos_distribution text) tag 0)
                         (len (tokenize_text text)))
                  (ratio 5 100))).
Proof.
  intros Hne. unfold tag_term. rewrite truediv_int; [reflexivity|].
  intros H. now apply len_zero_nil in H.
Qed.

Lemma tag_term_tokens (text tag : string) (v : num) :
  tag_term (calculate_pos_distribution text) tag text = Ok v ->
  tokenize_text text <> [].
Proof.
  unfold tag_term, truediv. intros H E. rewrite E in H. discriminate H.
Qed.

Lemma jj_term_zero (text : string) :
  tokenize_text text <> [] ->
  tag_term (calculate_pos_distribution text) "JJ" text
  = Ok (Flt (S754_zero false)).
Proof.
  intros Hne. rewrite tag_term_value by exact Hne. rewrite jj_count_zero.
  assert (Hpos : 0 < len (tokenize_text text)).
  { pose proof (len_nonneg (tokenize_text text)).
    assert (len (tokenize_text text) <> 0)
      by (intros H0; now apply len_zero_nil in H0). lia. }
  unfold ratio at 1. destruct (Z.ltb_spec (len (tokenize_text text)) 0); [lia|].
  reflexivity.
Qed.

(** Equal, or equal as numbers ([-0.0 == 0.0]). *)
Definition same_number (a b : num) : Prop := a = b \/ PyNum.eq a b = true.

Lemma add_float_r (a : num) (f : float) :
  (a + Flt f)%num = Flt (fadd (to_float a) f).
Proof. now destruct a. Qed.

Lemma fadd_zero_same (x : float) :
  same_number (Flt (fadd x (S754_zero false))) (Flt x).
Proof.
  destruct x as [[|]|s| |s m e]; try (left; reflexivity).
  right. reflexivity.
Qed.

(** ** The analysis returns on a text with a token *)

Lemma guard_false (s w : Z) :
  ((s =? 0) || (w =? 0))%bool = false -> s <> 0 /\ w <> 0.
Proof.
  intros H. apply orb_false_iff in H as [Hs Hw].
  split; now apply Z.eqb_neq.
Qed.

Lemma flesch_kincaid_returns (text : string) :
  exists v, calculate_flesch_kincaid_grade text = Ok v.
Proof.
  unfold calculate_flesch_kincaid_grade.
  rewrite mapM_count_syllables by apply tokens_nonempty. cbn [bind].
  destruct (_ || _)%bool eqn:G; [now eexists|].
  apply guard_false in G as [Hs Hw].
  rewrite !truediv_int by assumption. cbn [bind]. now eexists.
Qed.

Lemma flesch_reading_ease_returns (text : string) :
  exists v, calculate_flesch_reading_ease text = Ok v.
Proof.
  unfold calculate_flesch_reading_ease.
  rewrite mapM_count_syllables by apply tokens_nonempty. cbn [bind].
  destruct (_ || _)%bool eqn:G; [now eexists|].
  apply guard_false in G as [Hs Hw].
  rewrite !truediv_int by assumption. cbn [bind]. now eexists.
Qed.

Lemma gunning_fog_returns (text : string) :
  exists v, calculate_gunning_fog_index text = Ok v.
Proof.
  unfold calculate_gunning_fog_index.
  rewrite filterM_count_syllables by apply tokens_nonempty. cbn [bind].
  destruct (_ || _)%bool eqn:G; [now eexists|].
  apply guard_false in G as [Hs Hw].
  rewrite !truediv_int by assumption. cbn [bind]. now eexists.
Qed.

Lemma ttr_value (text : string) :
  tokenize_text text <> [] ->
  calculate_ttr text
  = Ok (Flt (ratio (len (distinct (tokenize_text text)))
                   (len (tokenize_text text)))).
Proof.
  intros Hne. unfold calculate_ttr. apply truediv_int.
  intros H. now apply len_zero_nil in H.
Qed.

Lemma mtld_loop_returns (threshold : num) (words : list string)
    (st : mtld_state) :
  exists st', mtld_loop threshold st words = Ok st'.
Proof.
  revert st; induction words as [|word rest IH]; intros st; cbn [mtld_loop].
  - now eexists.
  - unfold mtld_step. rewrite truediv_int.
    + cbn [bind]. destruct (PyNum.le _ _); cbn [bind]; apply IH.
    + unfold len. rewrite length_app. cbn. lia.
Qed.

Lemma mtld_returns (text : string) (threshold : num) :
  exists v, calculate_mtld text threshold = Ok v.
Proof.
  unfold calculate_mtld.
  destruct (mtld_loop_returns threshold (tokenize_text text)
              {| factor_count := 0; factor_lengths := [];
                 current_factor := [] |}) as [st ->].
  cbn [bind]. destruct (Z.eqb_spec (factor_count st) 0); [now eexists|].
  rewrite truediv_int by assumption. now eexists.
Qed.

Lemma truediv_by_int (a : num) (c : Z) :
  c <> 0 -> is_zero (of_int c) = false ->
  exists f, truediv a (Int c) = Ok (Flt f).
Proof.
  intros Hc Hz. destruct a as [z | f]; cbn [truediv to_float].
  - destruct (Z.eqb_spec c 0); [contradiction | now eexists].
  - rewrite Hz. now eexists.
Qed.

Lemma readability_returns (fk ease fog smog : num) :
  exists f, readability_of fk ease fog smog = Ok (Flt f).
Proof.
  unfold readability_of.
  destruct (truediv_by_int fk 12) as [a ->]; [lia | reflexivity|].
  destruct (truediv_by_int (Int 100 - ease)%num 100) as [b ->];
    [lia | reflexivity|].
  destruct (truediv_by_int fog 18) as [c ->]; [lia | reflexivity|].
  destruct (truediv_by_int smog 18) as [d ->]; [lia | reflexivity|].
  cbn [bind]. apply truediv_by_int; [lia | reflexivity].
Qed.

Lemma analyze_vocabulary_returns (rng : sampler) (text : string) :
  tokenize_text text <> [] -> exists r, analyze_vocabulary rng text = Ok r.
Proof.
  intros Hne. unfold analyze_vocabulary.
  destruct (flesch_kincaid_returns text) as [fk ->].
  destruct (flesch_reading_ease_returns text) as [ease ->].
  destruct (gunning_fog_returns text) as [fog ->].
  rewrite smog_index_value, (ttr_value text Hne).
  destruct (mtld_returns text (lit 72 100)) as [m ->].
  rewrite avg_sentence_length_quotient, clause_density_quotient.
  rewrite generate_cloze_test_returns by lia.
  cbn [bind].
  destruct (readability_returns fk ease fog
              (if len (sentence_tokenize text) <? 30 then Int 0
               else Flt (smog_formula (polysyllable_count text)
                                      (len (sentence_tokenize text)))))
    as [rd ->].
  destruct (truediv_by_int
              (Flt (ratio (len (tokenize_text text))
                          (len (sentence_tokenize text)))) 20)
    as [asl ->]; [lia | reflexivity|].
  destruct (truediv_by_int
              (Flt (ratio (sum (map sentence_clauses (sentence_tokenize text)))
                          (len (sentence_tokenize text)))) 3)
    as [cd ->]; [lia | reflexivity|].
  rewrite !tag_term_value by exact Hne.
  cbn [bind]. now eexists.
Qed.

(** ** The complexity score without the JJ term *)

(** The weighted sum of [analyze_vocabulary] without its last term,
    computed from the fields of the result. *)
Definition score_without_jj (r : analysis) (text : string) : exc num :=
  readability_score <-
    readability_of (flesch_kincaid_grade r) (flesch_reading_ease r)
                   (gunning_fog_index r) (smog_index r) ;;
  asl <- truediv (avg_sentence_length r) (Int 20) ;;
  cd <- truediv (clause_density r) (Int 3) ;;
  vb <- tag_term (pos_distribution r) "VB" text ;;
  Ok (readability_score * lit 4 10
      + (Int 1 - type_token_ratio r) * lit 2 10
      + PyNum.min asl (Int 1) * lit 2 10
      + PyNum.min cd (Int 1) * lit 1 10
      + vb)%num.

Lemma Ok_inj {A : Type} (a b : A) : Ok a = Ok b -> a = b.
Proof. intros H. now injection H. Qed.

Ltac step_bind H :=
  match type of H with
  | bind ?m _ = Ok _ =>
      let E := fresh "E" in
      destruct m eqn:E; cbn [bind] in H; [|discriminate H]
  end.

Lemma score_drops_jj_term (rng : sampler) (text : string) (r : analysis) :
  analyze_vocabulary rng text = Ok r ->
  exists score,
    score_without_jj r text = Ok score
    /\ same_number (complexity_score r) score.
Proof.
  intros H. unfold analyze_vocabulary in H.
  do 9 step_bind H.
  match type of H with context [let '(_, _) := ?p in _] => destruct p end.
  do 5 step_bind H.
  apply Ok_inj in H. subst r.
  unfold score_without_jj.
  cbn [flesch_kincaid_grade flesch_reading_ease gunning_fog_index smog_index
       avg_sentence_length clause_density pos_distribution type_token_ratio
       complexity_score].
  rewrite E8, E9, E10, E11. cbn [bind].
  eexists. split; [reflexivity|].
  pose proof (tag_term_tokens _ _ _ E12) as Hne.
  rewrite (jj_term_zero text Hne) in E12. apply Ok_inj in E12. subst.
  rewrite (tag_term_value text "VB" Hne) in E11. apply Ok_inj in E11. subst.
  rewrite (add_float_r _ (fmul _ _)), (add_float_r _ (S754_zero false)).
  cbn [to_float]. apply fadd_zero_same.
Qed.

(** C8: no token is tagged JJ, so the histogram's count for JJ is 0 and,
    on a text with a token, the JJ term of the complexity score is 0.0;
    whenever the analysis returns, its complexity score is the weighted
    sum without that term; and the analysis returns on every text with a
    token. *)
Theorem jj_term_is_always_zero (rng : sampler) (text : string) :
  (forall word tag, In (word, tag) (simple_pos_tagger text) -> tag <> "JJ")
  /\ counter_get String.eqb (calculate_pos_distribution text) "JJ" 0 = 0
  /\ (tokenize_text text <> [] ->
      tag_term (calculate_pos_distribution text) "JJ" text
      = Ok (Flt (S754_zero false)))
  /\ (forall r, analyze_vocabulary rng text = Ok r ->
        exists score,
          score_without_jj r text = Ok score
          /\ same_number (complexity_score r) score)
  /\ (tokenize_text text <> [] ->
      exists r, analyze_vocabulary rng text = Ok r).
Proof.
  split; [|split; [|split; [|split]]].
  - intros word tag. apply tagger_never_jj.
  - apply jj_count_zero.
  - apply jj_term_zero.
  - intros r. apply score_drops_jj_term.
  - apply analyze_vocabulary_returns.
Qed.

(** * Further properties of the analysis code *)

(** ** What the tokenizer keeps *)


Fixpoint keep_chars (p : ascii -> bool) (s : string) : string :=
  match s with
  | EmptyString => EmptyString
  | String c r => if p c then String c (keep_chars p r) else keep_chars p r
  end.






Lemma snoc_nonempty (s : string) (c : ascii) : snoc s c <> "".
Proof. unfold snoc. now destruct s. Qed.






Lemma append_nil_r (s : string) : s ++ "" = s.
Proof. induction s as [|c s IH]; cbn; [reflexivity | now rewrite IH]. Qed.

Lemma append_assoc (a b c : string) : (a ++ b) ++ c = a ++ b ++ c.
Proof. induction a as [|x a IH]; cbn; [reflexivity | now rewrite IH]. Qed.

Lemma join_empty_cons (x : string) (l : list string) :
  join "" (x :: l) = x ++ join "" l.
Proof.
  destruct l as [|y l]; cbn [join]; [now rewrite append_nil_r | reflexivity].
Qed.

Lemma join_empty_app (l1 l2 : list string) :
  join "" (l1 ++ l2) = join "" l1 ++ join "" l2.
Proof.
  induction l1 as [|x l1 IH]; [reflexivity|].
  change ((x :: l1) ++ l2)%list with (x :: (l1 ++ l2))%list.
  now rewrite !join_empty_cons, IH, append_assoc.
Qed.

Lemma join_flush (cur : string) : join "" (flush cur) = cur.
Proof. now destruct cur. Qed.

Lemma findall_words_join (s cur : string) :
  join "" (findall_words cur s) = cur ++ keep_chars is_word_char s.
Proof.
  revert cur; induction s as [|c r IH]; intros cur;
    cbn [findall_words keep_chars].
  - now rewrite join_flush, append_nil_r.
  - destruct (is_word_char c).
    + rewrite IH. unfold snoc. now rewrite append_assoc.
    + now rewrite join_empty_app, join_flush, IH.
Qed.

(** The tokens, put end to end, are the word characters of the
    lower-cased text, in order: the tokenizer drops the other characters
    and nothing else. *)
Theorem tokens_keep_the_word_characters (text : string) :
  join "" (tokenize_text text) = keep_chars is_word_char (lower text).
Proof. unfold tokenize_text. now rewrite findall_words_join. Qed.

(** ** What the sentence splitter keeps *)

(** The last character is one of [.!?]. *)
Definition ends_terminal (s : string) : Prop :=
  exists pre c, s = snoc pre c /\ is_terminal c = true.

(** The first character, if there is one, is not whitespace. *)
Definition starts_nonspace (s : string) : Prop :=
  match s with
  | EmptyString => True
  | String c _ => is_space c = false
  end.

Definition not_space (c : ascii) : bool := negb (is_space c).

Lemma removelast_cons {A : Type} (x : A) (l : list A) :
  (1 <= List.length l)%nat -> removelast (x :: l) = x :: removelast l.
Proof. destruct l; cbn; [lia | reflexivity]. Qed.

Lemma split_sentences_terminal (s cur : string) (a b : bool) :
  (a = true -> ends_terminal cur) ->
  Forall ends_terminal (removelast (split_sentences a b cur s)).
Proof.
  revert cur a b; induction s as [|c r IH]; intros cur a b Ha;
    cbn [split_sentences].
  - constructor.
  - destruct (is_space c).
    + destruct b; [apply IH; discriminate|].
      destruct a; [|apply IH; discriminate].
      rewrite removelast_cons by apply split_sentences_length.
      constructor; [now apply Ha | apply IH; discriminate].
    + apply IH. intros Hc. now exists cur, c.
Qed.

Lemma starts_nonspace_snoc (cur : string) (c : ascii) :
  starts_nonspace cur -> (cur = "" -> is_space c = false) ->
  starts_nonspace (snoc cur c).
Proof. destruct cur; cbn; auto. Qed.

Lemma split_sentences_heads (s cur : string) (a b : bool) :
  starts_nonspace cur -> (cur = "" -> b = true) ->
  Forall starts_nonspace (split_sentences a b cur s).
Proof.
  revert cur a b; induction s as [|c r IH]; intros cur a b Hcur Hb;
    cbn [split_sentences].
  - now constructor.
  - destruct (is_space c) eqn:Sp.
    + destruct b; [now apply IH|].
      assert (Hne : cur <> "") by (intros E; now apply Hb in E).
      destruct a.
      * constructor; [exact Hcur | now apply IH].
      * apply IH; [now apply starts_nonspace_snoc|].
        intros E. now apply snoc_nonempty in E.
    + apply IH.
      * apply starts_nonspace_snoc; [exact Hcur | now intros _].
      * intros E. now apply snoc_nonempty in E.
Qed.

Lemma split_sentences_tails (s cur : string) (a b : bool) :
  Forall starts_nonspace (tl (split_sentences a b cur s)).
Proof.
  revert cur a b; induction s as [|c r IH]; intros cur a b;
    cbn [split_sentences].
  - constructor.
  - destruct (is_space c); [|apply IH].
    destruct b; [apply IH|]. destruct a; [|apply IH].
    cbn [tl]. now apply split_sentences_heads.
Qed.

(** Every sentence but the last ends in one of [.!?], and no sentence
    after the first begins with whitespace: a split happens only after a
    terminal mark and takes the whole run of whitespace. *)
Theorem sentences_are_cut_after_terminals (text : string) :
  Forall ends_terminal (removelast (sentence_tokenize text))
  /\ Forall starts_nonspace (tl (sentence_tokenize text)).
Proof.
  split.
  - apply split_sentences_terminal. discriminate.
  - apply split_sentences_tails.
Qed.

Lemma keep_chars_app (p : ascii -> bool) (a b : string) :
  keep_chars p (a ++ b) = keep_chars p a ++ keep_chars p b.
Proof.
  induction a as [|c a IH]; [reflexivity|].
  cbn [append keep_chars]. destruct (p c); cbn [append]; now rewrite IH.
Qed.

Lemma split_sentences_keep (s cur : string) (a b : bool) :
  (b = true -> cur = "") ->
  keep_chars not_space (join "" (split_sentences a b cur s))
  = keep_chars not_space (cur ++ s).
Proof.
  revert cur a b; induction s as [|c r IH]; intros cur a b Hb;
    cbn [split_sentences].
  - cbn [join]. now rewrite append_nil_r.
  - destruct (is_space c) eqn:Sp.
    + assert (Hc : keep_chars not_space (String c r) = keep_chars not_space r)
        by (cbn [keep_chars]; unfold not_space; now rewrite Sp).
      destruct b.
      * rewrite (Hb eq_refl), IH by reflexivity. cbn [append].
        now rewrite Hc.
      * destruct a.
        -- rewrite join_empty_cons, !keep_chars_app, IH by reflexivity.
           cbn [append]. now rewrite Hc.
        -- rewrite IH by discriminate. unfold snoc. now rewrite append_assoc.
    + rewrite IH by discriminate. unfold snoc. now rewrite append_assoc.
Qed.

(** The sentences, put end to end, have the characters of the text other
    than whitespace, in order: splitting removes whitespace only. *)
Theorem sentences_keep_the_text (text : string) :
  keep_chars not_space (join "" (sentence_tokenize text))
  = keep_chars not_space text.
Proof. apply (split_sentences_keep text "" false false). discriminate. Qed.

(** ** An upper bound on the syllable count *)

Lemma syllable_step_le (word : string) (count : Z) (i : nat) :
  syllable_step word count i <= count + 1.
Proof.
  unfold syllable_step.
  destruct (String.get i word); [|lia].
  destruct (String.get (i - 1) word); [|lia].
  destruct (_ && _)%bool; lia.
Qed.

Lemma syllable_loop_le (word : string) (l : list nat) (count : Z) :
  fold_left (syllable_step word) l count <= count + len l.
Proof.
  revert count; induction l as [|i l IH]; intros count; cbn [fold_left].
  - unfold len; cbn; lia.
  - pose proof (syllable_step_le word count i).
    pose proof (IH (syllable_step word count i)).
    unfold len in *; cbn [List.length]; lia.
Qed.

Lemma endswith_le_e (w : string) :
  endswith w "le" = true -> endswith w "e" = true.
Proof.
  induction w as [|a r IH]; cbn [endswith]; intros H.
  - discriminate.
  - apply orb_true_iff in H as [H | H].
    + apply String.eqb_eq in H. injection H as -> ->. reflexivity.
    + rewrite (IH H). apply orb_true_r.
Qed.

Lemma lower_length (s : string) : String.length (lower s) = String.length s.
Proof. induction s as [|c r IH]; cbn; [reflexivity | now rewrite IH]. Qed.

(** The estimator never counts more syllables than the word has
    characters, and the one exception it raises is the [IndexError] of
    [word[0]] on the empty word. *)
Theorem count_syllables_at_most_length (word : string) :
  match count_syllables word with
  | Ok n => n <= Z.of_nat (String.length word)
  | Raise e => e = IndexError /\ word = ""
  end.
Proof.
  destruct word as [|a r]; [now split|].
  unfold count_syllables. cbn [lower String.get].
  set (w := String (lower_char a) (lower r)).
  set (c0 := lower_char a).
  set (loop := fold_left (syllable_step w) (seq 1 (String.length w - 1))
                 (if mem c0 vowels then 0 + 1 else 0)).
  assert (Hlen : String.length w = S (String.length r))
    by (subst w; cbn; now rewrite lower_length).
  assert (Hloop : loop <= Z.of_nat (String.length w)).
  { subst loop.
    pose proof (syllable_loop_le w (seq 1 (String.length w - 1))
                  (if mem c0 vowels then 0 + 1 else 0)) as H.
    unfold len in H. rewrite length_seq in H.
    destruct (mem c0 vowels); lia. }
  pose proof (endswith_le_e w) as Hle.
  cbn [String.length]. rewrite Hlen in Hloop.
  destruct (endswith w "e") eqn:E1; destruct (endswith w "le") eqn:E2;
    try (specialize (Hle eq_refl); discriminate Hle);
    match goal with |- context [?x =? 0] => destruct (Z.eqb_spec x 0) end;
    lia.
Qed.

(** ** Values of the readability calculators *)

(** The sum of the syllable counts of the tokens. *)
Definition syllable_total (text : string) : Z :=
  sum (map syllables (tokenize_text text)).

(** The number of tokens of more than two syllables. *)
Definition complex_count (text : string) : Z :=
  len (filter (fun word => 2 <? syllables word) (tokenize_text text)).

(** [round(0.39 * (W / S) + 11.8 * (Y / W) - 15.59, 1)] *)
Definition flesch_kincaid_formula (W S Y : Z) : float :=
  round1 (fsub (fadd (fmul (ratio 39 100) (ratio W S))
                     (fmul (ratio 118 10) (ratio Y W)))
               (ratio 1559 100)).

(** [round(206.835 - 1.015 * (W / S) - 84.6 * (Y / W), 1)] *)
Definition flesch_ease_formula (W S Y : Z) : float :=
  round1 (fsub (fsub (ratio 206835 1000) (fmul (ratio 1015 1000) (ratio W S)))
               (fmul (ratio 846 10) (ratio Y W))).

(** [round(0.4 * ((W / S) + 100 * (C / W)), 1)] *)
Definition gunning_fog_formula (W S C : Z) : float :=
  round1 (fmul (ratio 4 10)
               (fadd (ratio W S) (fmul (of_int 100) (ratio C W)))).

Lemma readability_guard (text : string) :
  ((len (sentence_tokenize text) =? 0) || (len (tokenize_text text) =? 0))%bool
  = (len (tokenize_text text) =? 0).
Proof.
  pose proof (sentences_positive text).
  now destruct (Z.eqb_spec (len (sentence_tokenize text)) 0); [lia|].
Qed.

(** The Flesch-Kincaid grade, the Flesch reading ease and the Gunning fog
    index never raise: they are 0 on a text without a token and the
    rounded formula on every other text. *)
Theorem readability_calculators_values (text : string) :
  let W := len (tokenize_text text) in
  let S := len (sentence_tokenize text) in
  calculate_flesch_kincaid_grade text
  = Ok (if W =? 0 then Int 0
        else Flt (flesch_kincaid_formula W S (syllable_total text)))
  /\ calculate_flesch_reading_ease text
     = Ok (if W =? 0 then Int 0
           else Flt (flesch_ease_formula W S (syllable_total text)))
  /\ calculate_gunning_fog_index text
     = Ok (if W =? 0 then Int 0
           else Flt (gunning_fog_formula W S (complex_count text))).
Proof.
  intros W S.
  pose proof (sentences_positive text) as HS.
  unfold calculate_flesch_kincaid_grade, calculate_flesch_reading_ease,
    calculate_gunning_fog_index.
  rewrite mapM_count_syllables by apply tokens_nonempty.
  rewrite filterM_count_syllables by apply tokens_nonempty.
  cbn [bind]. rewrite readability_guard. fold W S.
  destruct (Z.eqb_spec W 0) as [E | NE]; [now repeat split|].
  rewrite !truediv_int by (subst S; lia || exact NE).
  now repeat split.
Qed.

(** ** The type-token ratio *)

Lemma distinct_bounds (l : list string) :
  l <> [] -> 1 <= len (distinct l) <= len l.
Proof.
  intros Hne. unfold len, distinct.
  pose proof (NoDup_incl_length (NoDup_nodup string_dec l)
                (fun x H => proj1 (nodup_In string_dec l x) H)) as Hle.
  destruct l as [|x l]; [contradiction|].
  assert (Hin : In x (nodup string_dec (x :: l)))
    by (apply nodup_In; now left).
  destruct (nodup string_dec (x :: l)); [destruct Hin|].
  cbn [List.length] in *. lia.
Qed.

(** The type-token ratio raises [ZeroDivisionError] exactly on a text
    without a token; on every other text it is the quotient of the number
    of distinct tokens, which is at least 1 and at most the number of
    tokens, by the number of tokens. *)
Theorem ttr_raises_without_tokens (text : string) :
  match calculate_ttr text with
  | Ok v =>
      tokenize_text text <> []
      /\ v = Flt (ratio (len (distinct (tokenize_text text)))
                        (len (tokenize_text text)))
      /\ 1 <= len (distinct (tokenize_text text)) <= len (tokenize_text text)
  | Raise e => e = ZeroDivisionError /\ tokenize_text text = []
  end.
Proof.
  destruct (tokenize_text text) as [|w l] eqn:E.
  - unfold calculate_ttr. rewrite E. now split.
  - assert (Hne : tokenize_text text <> []) by (rewrite E; discriminate).
    rewrite (ttr_value text Hne). rewrite <- E.
    split; [exact Hne|]. split; [reflexivity | now apply distinct_bounds].
Qed.

Lemma div_core_same (p : positive) :
  SFdiv_core_binary prec emax (Z.pos p) 0 (Z.pos p) 0
  = (2 ^ 53, -53, loc_Exact).
Proof.
  unfold SFdiv_core_binary.
  replace (Zdigits2 (Z.pos p) + 0 - (Zdigits2 (Z.pos p) + 0)) with 0 by lia.
  change (Z.min (fexp prec emax 0) (0 - 0)) with (-53).
  change (0 - 0 - -53) with 53.
  cbv iota.
  assert (H : Z.div_eucl (Z.shiftl (Z.pos p) 53) (Z.pos p) = (2 ^ 53, 0)).
  { rewrite Z.shiftl_mul_pow2 by lia.
    pose proof (Z.div_mul (2 ^ 53) (Z.pos p) ltac:(lia)) as Hd.
    pose proof (Z.mod_mul (2 ^ 53) (Z.pos p) ltac:(lia)) as Hm.
    rewrite (Z.mul_comm (Z.pos p)).
    unfold Z.div, Z.modulo in Hd, Hm.
    destruct (Z.div_eucl (2 ^ 53 * Z.pos p) (Z.pos p)) as [q r].
    cbv beta iota in Hd, Hm. rewrite Hd, Hm. reflexivity. }
  rewrite H. unfold new_location, new_location_even, new_location_odd.
  now destruct (Z.even (Z.pos p)).
Qed.

Lemma ratio_same (n : Z) : 0 < n -> ratio n n = ratio 1 1.
Proof.
  intros Hn. destruct n as [|p|p]; try lia.
  unfold ratio, fdiv, SFdiv. cbn [Z.abs Z.to_pos Z.ltb Z.compare].
  rewrite !div_core_same. reflexivity.
Qed.

(** When no token occurs twice, the type-token ratio is exactly 1.0. *)
Theorem ttr_of_distinct_tokens (text : string) :
  tokenize_text text <> [] ->
  NoDup (tokenize_text text) ->
  calculate_ttr text = Ok (Flt (ratio 1 1))
  /\ ratio 1 1 = of_int 1.
Proof.
  intros Hne Hnd. split; [|reflexivity].
  rewrite (ttr_value text Hne). unfold distinct.
  rewrite (nodup_fixed_point string_dec Hnd).
  rewrite ratio_same; [reflexivity|].
  pose proof (distinct_bounds _ Hne). lia.
Qed.

Lemma ttr_of_distinct_tokens_witness :
  tokenize_text "The cat sat." <> []
  /\ NoDup (tokenize_text "The cat sat.")
  /\ calculate_ttr "The cat sat." = Ok (Flt (ratio 1 1))
  /\ ratio 1 1 = of_int 1.
Proof.
  assert (Hne : tokenize_text "The cat sat." <> []) by discriminate.
  assert (Hnd : NoDup (tokenize_text "The cat sat.")).
  { change (tokenize_text "The cat sat.") with ["the"; "cat"; "sat"].
    repeat (constructor; [cbn; intuition discriminate|]). constructor. }
  split; [exact Hne|]. split; [exact Hnd|].
  exact (ttr_of_distinct_tokens "The cat sat." Hne Hnd).
Defined.

(** ** The factors of MTLD *)

Lemma sum_app (l1 l2 : list Z) : sum (l1 ++ l2) = sum l1 + sum l2.
Proof.
  induction l1 as [|x l1 IH]; [reflexivity|].
  change ((x :: l1) ++ l2)%list with (x :: (l1 ++ l2))%list.
  rewrite !sum_cons, IH. lia.
Qed.

(** What the loop of [calculate_mtld] keeps after [k] tokens: a length is
    recorded for each closed factor, the closed factors and the open one
    hold the [k] tokens, and a closed factor has at least two tokens. *)
Definition mtld_invariant (st : mtld_state) (k : Z) : Prop :=
  factor_count st = len (factor_lengths st)
  /\ sum (factor_lengths st) + len (current_factor st) = k
  /\ Forall (fun n => 2 <= n) (factor_lengths st).

Lemma mtld_step_invariant (st : mtld_state) (word : string) (k : Z) :
  mtld_invariant st k ->
  exists st', mtld_step (lit 72 100) st word = Ok st'
              /\ mtld_invariant st' (k + 1).
Proof.
  intros (Hc & Hs & Hf). unfold mtld_step.
  assert (Hlen : len (current_factor st ++ [word]) = len (current_factor st) + 1)
    by (unfold len; rewrite length_app; cbn; lia).
  rewrite truediv_int by (rewrite Hlen; pose proof (len_nonneg (current_factor st)); lia).
  cbn [bind].
  destruct (PyNum.le _ _) eqn:Hle; eexists; (split; [reflexivity|]);
    unfold mtld_invariant; cbn [factor_count factor_lengths current_factor].
  - split; [|split].
    + unfold len in *. rewrite length_app. cbn. lia.
    + rewrite sum_app, sum_cons, Hlen.
      change (sum []) with 0. change (len (@nil string)) with 0. lia.
    + apply Forall_app. split; [exact Hf|]. constructor; [|constructor].
      destruct (current_factor st) as [|w l] eqn:E.
      * cbn in Hle. discriminate Hle.
      * rewrite Hlen. unfold len; cbn [List.length]. lia.
  - split; [exact Hc|]. split; [rewrite Hlen; lia | exact Hf].
Qed.

Lemma mtld_loop_invariant (words : list string) (st : mtld_state) (k : Z) :
  mtld_invariant st k ->
  exists st', mtld_loop (lit 72 100) st words = Ok st'
              /\ mtld_invariant st' (k + len words).
Proof.
  revert st k; induction words as [|word rest IH]; intros st k Hi;
    cbn [mtld_loop].
  - exists st. split; [reflexivity|]. unfold len; cbn. now rewrite Z.add_0_r.
  - destruct (mtld_step_invariant st word k Hi) as (st1 & -> & Hi1).
    cbn [bind]. destruct (IH st1 (k + 1) Hi1) as (st2 & -> & Hi2).
    exists st2. split; [reflexivity|].
    replace (k + len (word :: rest)) with (k + 1 + len rest); [exact Hi2|].
    unfold len; cbn [List.length]; lia.
Qed.

(** MTLD with its default threshold 0.72 never raises.  Each closed
    factor has at least two tokens, the closed factors and the open
    remainder hold all the tokens, and the result is the mean length of
    the closed factors, or the number of tokens when no factor closed
    (0 on a text without a token). *)
Theorem mtld_factors_cover_the_tokens (text : string) :
  exists st,
    mtld_loop (lit 72 100)
      {| factor_count := 0; factor_lengths := []; current_factor := [] |}
      (tokenize_text text) = Ok st
    /\ factor_count st = len (factor_lengths st)
    /\ sum (factor_lengths st) + len (current_factor st)
       = len (tokenize_text text)
    /\ Forall (fun n => 2 <= n) (factor_lengths st)
    /\ calculate_mtld text (lit 72 100)
       = Ok (if factor_count st =? 0 then Int (len (tokenize_text text))
             else Flt (ratio (sum (factor_lengths st)) (factor_count st))).
Proof.
  destruct (mtld_loop_invariant (tokenize_text text)
              {| factor_count := 0; factor_lengths := [];
                 current_factor := [] |} 0)
    as (st & Hrun & Hc & Hs & Hf).
  { unfold mtld_invariant; cbn. repeat split. constructor. }
  exists st. split; [exact Hrun|]. split; [exact Hc|].
  split; [rewrite Hs; lia|]. split; [exact Hf|].
  unfold calculate_mtld. rewrite Hrun. cbn [bind].
  destruct (Z.eqb_spec (factor_count st) 0); [reflexivity|].
  now rewrite truediv_int.
Qed.

(** ** Counting with a Counter *)

Section CounterLookup.

Context {K : Type} (keq : K -> K -> bool).
Hypothesis keq_spec : forall a b, keq a b = true <-> a = b.

Lemma counter_get_incr (x k : K) (c : counter K) :
  counter_get keq (counter_incr keq x c) k 0
  = counter_get keq c k 0 + (if keq k x then 1 else 0).
Proof.
  induction c as [|[k0 n] c IH]; cbn [counter_incr counter_get].
  - destruct (keq k x); reflexivity.
  - destruct (keq x k0) eqn:Ex; cbn [counter_get].
    + apply keq_spec in Ex. subst k0. destruct (keq k x); lia.
    + destruct (keq k k0) eqn:Ek; [|exact IH].
      apply keq_spec in Ek. subst k0.
      destruct (keq k x) eqn:Ekx; [|lia].
      apply keq_spec in Ekx. subst x.
      assert (keq k k = true) by now apply keq_spec. congruence.
Qed.

Lemma counter_get_fold (l : list K) (c : counter K) (k : K) :
  counter_get keq (fold_left (fun c x => counter_incr keq x c) l c) k 0
  = counter_get keq c k 0 + len (filter (keq k) l).
Proof.
  revert c; induction l as [|x l IH]; intros c; cbn [fold_left filter].
  - unfold len; cbn; lia.
  - rewrite IH, counter_get_incr.
    destruct (keq k x); unfold len; cbn [List.length]; lia.
Qed.

Lemma counter_get_of (l : list K) (k : K) :
  counter_get keq (counter_of keq l) k 0 = len (filter (keq k) l).
Proof. unfold counter_of. now rewrite counter_get_fold. Qed.

Lemma counter_incr_nodup (x : K) (c : counter K) :
  NoDup (map fst c) -> NoDup (map fst (counter_incr keq x c)).
Proof.
  induction c as [|[k0 n] c IH]; cbn [counter_incr map fst]; intros Hnd.
  - constructor; [intros [] | constructor].
  - destruct (keq x k0) eqn:Ex; cbn [map fst]; [exact Hnd|].
    inversion Hnd as [|? ? Hnotin Hrest]; subst.
    constructor; [|now apply IH].
    intros Hin. apply counter_incr_keys in Hin as [-> | Hin]; [|tauto].
    assert (keq x x = true) by now apply keq_spec. congruence.
Qed.

Lemma counter_of_nodup (l : list K) : NoDup (map fst (counter_of keq l)).
Proof.
  unfold counter_of.
  assert (H : forall c : counter K, NoDup (map fst c) ->
            NoDup (map fst (fold_left (fun c x => counter_incr keq x c) l c))).
  { induction l as [|x l IH]; intros c Hc; cbn [fold_left]; [exact Hc|].
    apply IH. now apply counter_incr_nodup. }
  apply H. constructor.
Qed.

End CounterLookup.

Lemma string_eqb_spec (a b : string) : String.eqb a b = true <-> a = b.
Proof. apply String.eqb_eq. Qed.

(** The histogram of tags counts: the entry of a tag is the number of
    tokens with that tag (0 for a tag that no token has), and no tag has
    two entries. *)
Theorem pos_distribution_counts_tags (text tag : string) :
  counter_get String.eqb (calculate_pos_distribution text) tag 0
  = len (filter (fun word => String.eqb tag (pos_tag word))
                (tokenize_text text))
  /\ NoDup (map fst (calculate_pos_distribution text)).
Proof.
  unfold calculate_pos_distribution, simple_pos_tagger. split.
  - rewrite (counter_get_of String.eqb string_eqb_spec), !map_map.
    cbn [snd]. unfold len. f_equal.
    induction (tokenize_text text) as [|w l IH]; [reflexivity|].
    cbn [map filter]. destruct (String.eqb tag (pos_tag w)); cbn [List.length];
      now rewrite IH.
  - apply (counter_of_nodup String.eqb string_eqb_spec).
Qed.

(** ** N-grams *)

Lemma tuple_eqb_spec (a b : list string) : tuple_eqb a b = true <-> a = b.
Proof.
  unfold tuple_eqb. destruct (list_eq_dec string_dec a b); split;
    intros H; try reflexivity; try assumption; try discriminate; contradiction.
Qed.

Lemma slice_length (words : list string) (i n : nat) :
  (i + n <= List.length words)%nat -> List.length (slice words i n) = n.
Proof.
  intros H. unfold slice. rewrite length_firstn, length_skipn. lia.
Qed.

Section CounterEntries.

Context {K : Type} (keq : K -> K -> bool).
Hypothesis keq_spec : forall a b, keq a b = true <-> a = b.

Lemma counter_incr_keeps (x k : K) (c : counter K) :
  In k (map fst c) -> In k (map fst (counter_incr keq x c)).
Proof.
  induction c as [|[k0 n] c IH]; cbn [counter_incr map fst In]; [tauto|].
  destruct (keq x k0); cbn [map fst In]; tauto.
Qed.

Lemma counter_incr_enters (x : K) (c : counter K) :
  In x (map fst (counter_incr keq x c)).
Proof.
  induction c as [|[k0 n] c IH]; cbn [counter_incr map fst In]; [now left|].
  destruct (keq x k0) eqn:E; cbn [map fst In].
  - apply keq_spec in E. now left.
  - now right.
Qed.

Lemma counter_fold_enters (l : list K) (c : counter K) (k : K) :
  In k l \/ In k (map fst c) ->
  In k (map fst (fold_left (fun c x => counter_incr keq x c) l c)).
Proof.
  revert c; induction l as [|x l IH]; intros c; cbn [fold_left In].
  - tauto.
  - intros [[-> | H] | H]; apply IH.
    + right. apply counter_incr_enters.
    + now left.
    + right. now apply counter_incr_keeps.
Qed.

(** The keys of a Counter built from a list are the elements of the
    list. *)
Lemma counter_of_keys (l : list K) (k : K) :
  In k (map fst (counter_of keq l)) <-> In k l.
Proof.
  unfold counter_of. split.
  - intros H. apply counter_fold_keys in H as [H | []]. exact H.
  - intros H. apply counter_fold_enters. now left.
Qed.

End CounterEntries.

Lemma filter_map_length {A B : Type} (p : B -> bool) (f : A -> B)
    (l : list A) :
  List.length (filter p (map f l))
  = List.length (filter (fun x => p (f x)) l).
Proof.
  induction l as [|x l IH]; [reflexivity|].
  cbn [map filter]. destruct (p (f x)); cbn [List.length]; now rewrite IH.
Qed.

(** A slice is a run of consecutive elements of the list. *)
Lemma slice_run (words : list string) (i n : nat) :
  words = (firstn i words ++ slice words i n
           ++ skipn n (skipn i words))%list.
Proof. unfold slice. now rewrite !firstn_skipn. Qed.

(** The positions at which an n-gram can start: [range(len(words)-n+1)]. *)
Definition window_starts (words : list string) (n : nat) : list nat :=
  seq 0 (Z.to_nat (len words - Z.of_nat n + 1)).

Lemma window_starts_spec (words : list string) (i n : nat) :
  In i (window_starts words n) <-> (i + n <= List.length words)%nat.
Proof.
  unfold window_starts, len. rewrite in_seq. lia.
Qed.

(** The n-gram table of a text of [L] tokens holds [L - n + 1] n-grams
    when that is positive and none otherwise.  Its keys are exactly the
    windows of the token list: a key is the run of [n] consecutive tokens
    that starts at some position [i] with [i + n <= L], so the token list
    is some tokens, then the key, then the remaining tokens; every such
    run is a key; the count of a key is the number of positions at which
    it starts; and no key has two entries. *)
Theorem ngram_frequency_counts_windows (text : string) (n : nat) :
  sum (counter_values (calculate_ngram_frequency text n))
  = Z.max 0 (len (tokenize_text text) - Z.of_nat n + 1)
  /\ Forall (fun key => List.length key = n)
            (map fst (calculate_ngram_frequency text n))
  /\ NoDup (map fst (calculate_ngram_frequency text n))
  /\ (forall key,
        In key (map fst (calculate_ngram_frequency text n))
        <-> exists i, (i + n <= List.length (tokenize_text text))%nat
                      /\ key = slice (tokenize_text text) i n)
  /\ (forall key,
        In key (map fst (calculate_ngram_frequency text n)) ->
        exists before after,
          tokenize_text text = (before ++ key ++ after)%list)
  /\ (forall key,
        counter_get tuple_eqb (calculate_ngram_frequency text n) key 0
        = len (filter (fun i => tuple_eqb key (slice (tokenize_text text) i n))
                      (window_starts (tokenize_text text) n))).
Proof.
  assert (Hkeys : forall key,
            In key (map fst (calculate_ngram_frequency text n))
            <-> exists i, (i + n <= List.length (tokenize_text text))%nat
                          /\ key = slice (tokenize_text text) i n).
  { intros key. unfold calculate_ngram_frequency.
    rewrite (counter_of_keys tuple_eqb tuple_eqb_spec), in_map_iff.
    split.
    - intros (i & <- & Hi). exists i. split; [|reflexivity].
      now apply (window_starts_spec (tokenize_text text)).
    - intros (i & Hi & ->). exists i. split; [reflexivity|].
      now apply (window_starts_spec (tokenize_text text)). }
  split; [|split; [|split; [|split; [|split]]]].
  - unfold calculate_ngram_frequency.
    rewrite counter_of_sum. unfold len.
    rewrite length_map, length_seq. lia.
  - apply Forall_forall. intros key Hin.
    apply Hkeys in Hin as (i & Hi & ->). now apply slice_length.
  - apply (counter_of_nodup tuple_eqb tuple_eqb_spec).
  - exact Hkeys.
  - intros key Hin. apply Hkeys in Hin as (i & Hi & ->).
    exists (firstn i (tokenize_text text)),
           (skipn n (skipn i (tokenize_text text))).
    apply slice_run.
  - intros key. unfold calculate_ngram_frequency.
    rewrite (counter_get_of tuple_eqb tuple_eqb_spec).
    unfold len. now rewrite filter_map_length.
Qed.

(** ** The most common entries *)

Section MostCommon.

Context {K : Type}.

(** Counts in descending order. *)
Fixpoint descending (l : list (K * Z)) : Prop :=
  match l with
  | [] => True
  | x :: r => (forall y, In y r -> snd y <= snd x) /\ descending r
  end.

Lemma insert_desc_perm (x : K * Z) (l : list (K * Z)) :
  Permutation (insert_desc K x l) (x :: l).
Proof.
  induction l as [|y r IH]; cbn [insert_desc]; [reflexivity|].
  destruct (snd y <=? snd x); [reflexivity|].
  rewrite IH. apply perm_swap.
Qed.

Lemma insert_desc_descending (x : K * Z) (l : list (K * Z)) :
  descending l -> descending (insert_desc K x l).
Proof.
  induction l as [|y r IH]; cbn [insert_desc descending].
  - intros _. split; [intros y []|exact I].
  - intros [Hy Hr]. destruct (Z.leb_spec (snd y) (snd x)) as [Hle | Hgt].
    + cbn [descending]. split; [|now split].
      intros z [<- | Hz]; [exact Hle|]. specialize (Hy z Hz). lia.
    + cbn [descending]. split; [|now apply IH].
      intros z Hz.
      apply (Permutation_in _ (insert_desc_perm x r)) in Hz as [<- | Hz];
        [lia | now apply Hy].
Qed.

Lemma sorted_counter (c : counter K) :
  descending (fold_right (insert_desc K) [] c)
  /\ Permutation (fold_right (insert_desc K) [] c) c.
Proof.
  induction c as [|x c [IH1 IH2]]; cbn [fold_right].
  - split; [exact I | reflexivity].
  - split; [now apply insert_desc_descending|].
    rewrite insert_desc_perm. now constructor.
Qed.

Lemma in_skipn (l : list (K * Z)) (n : nat) (y : K * Z) :
  In y (skipn n l) -> In y l.
Proof.
  intros H. rewrite <- (firstn_skipn n l). apply in_or_app. now right.
Qed.

Lemma in_firstn (l : list (K * Z)) (n : nat) (y : K * Z) :
  In y (firstn n l) -> In y l.
Proof.
  intros H. rewrite <- (firstn_skipn n l). apply in_or_app. now left.
Qed.

Lemma descending_cut (l : list (K * Z)) (n : nat) (x y : K * Z) :
  descending l -> In x (firstn n l) -> In y (skipn n l) -> snd y <= snd x.
Proof.
  revert n; induction l as [|z r IH]; intros n Hd Hx Hy.
  - rewrite firstn_nil in Hx. destruct Hx.
  - destruct n as [|n]; [destruct Hx|].
    cbn [firstn skipn descending] in *. destruct Hd as [Hz Hr].
    destruct Hx as [<- | Hx].
    + apply Hz. now apply (in_skipn r n).
    + now apply (IH n).
Qed.

Lemma descending_firstn (l : list (K * Z)) (n : nat) :
  descending l -> descending (firstn n l).
Proof.
  revert n; induction l as [|z r IH]; intros n Hd.
  - now rewrite firstn_nil.
  - destruct n as [|n]; [exact I|].
    cbn [firstn descending] in *. destruct Hd as [Hz Hr].
    split; [|now apply IH].
    intros y Hy. apply Hz. now apply (in_firstn r n).
Qed.

Lemma most_common_largest (n : nat) (c : counter K) :
  (List.length (most_common n c) <= n)%nat
  /\ descending (most_common n c)
  /\ exists rest,
       Permutation (most_common n c ++ rest) c
       /\ forall x y, In x (most_common n c) -> In y rest -> snd y <= snd x.
Proof.
  unfold most_common. destruct (sorted_counter c) as [Hd Hp].
  split; [apply firstn_le_length|]. split; [now apply descending_firstn|].
  exists (skipn n (fold_right (insert_desc K) [] c)). split.
  - now rewrite firstn_skipn.
  - intros x y. now apply descending_cut.
Qed.

End MostCommon.

(** The top bigrams of the analysis, [most_common(10)] of the bigram
    table: at most ten entries, in descending order of count, all of them
    entries of the table, and no entry left out counts more than one that
    is listed. *)
Theorem top_bigrams_are_the_most_frequent (text : string) :
  let table := calculate_ngram_frequency text 2 in
  let top := most_common 10 table in
  (List.length top <= 10)%nat
  /\ descending top
  /\ exists rest,
       Permutation (top ++ rest) table
       /\ forall x y, In x top -> In y rest -> snd y <= snd x.
Proof. intros table top. apply most_common_largest. Qed.

(** ** Content words and blanks *)

(** The determiners and the pronouns of the tagger. *)
Definition function_words : list string :=
  ["the"; "a"; "an"; "i"; "you"; "he"; "she"; "it"; "we"; "they"].

Lemma in_list_iff (w : string) (l : list string) :
  in_list w l = true <-> In w l.
Proof.
  unfold in_list. rewrite existsb_exists. split.
  - intros (x & Hx & E). apply String.eqb_eq in E. now subst.
  - intros H. exists w. split; [exact H | apply String.eqb_refl].
Qed.

Lemma content_tag_of_word (w : string) :
  is_content_tag (pos_tag w) = negb (in_list w function_words).
Proof.
  destruct (in_list w function_words) eqn:F.
  - apply in_list_iff in F. cbn in F.
    repeat (destruct F as [<- | F]; [reflexivity|]). destruct F.
  - change function_words
      with (["the"; "a"; "an"] ++ ["i"; "you"; "he"; "she"; "it"; "we"; "they"])%list
      in F.
    unfold in_list in F. rewrite existsb_app in F.
    apply orb_false_iff in F as [Fd Fp].
    unfold pos_tag, in_list. rewrite Fd, Fp.
    repeat match goal with
           | |- context [if ?b then _ else _] => destruct b
           end; reflexivity.
Qed.

Lemma content_words_filter (text : string) :
  content_words_of text
  = filter (fun word => negb (in_list word function_words))
           (tokenize_text text).
Proof.
  unfold content_words_of, simple_pos_tagger.
  induction (tokenize_text text) as [|w l IH]; [reflexivity|].
  cbn [map filter snd]. rewrite content_tag_of_word.
  destruct (negb (in_list w function_words)); cbn [map fst]; now rewrite IH.
Qed.

(** The content words are the tokens other than the three determiners and
    the seven pronouns of the tagger, in text order and with repetitions:
    every other token is tagged NN, VB, VBD, VBG or RB. *)
Theorem content_words_are_the_other_tokens (text : string) :
  content_words_of text
  = filter (fun word => negb (in_list word function_words))
           (tokenize_text text)
  /\ forall word,
       is_content_tag (pos_tag word) = negb (in_list word function_words).
Proof.
  split; [apply content_words_filter | apply content_tag_of_word].
Qed.

Lemma choose_all_from {A : Type} (pre l : list A) :
  choose (pre ++ l) (seq (List.length pre) (List.length l)) = l.
Proof.
  revert pre; induction l as [|x l IH]; intros pre; [reflexivity|].
  cbn [List.length seq]. unfold choose in *. cbn [flat_map].
  rewrite nth_error_app2 by lia. rewrite Nat.sub_diag. cbn [nth_error app].
  f_equal. specialize (IH (pre ++ [x])%list).
  rewrite <- app_assoc, length_app in IH. cbn [app List.length] in IH.
  now rewrite Nat.add_1_r in IH.
Qed.

Lemma choose_all {A : Type} (l : list A) (idxs : list nat) :
  NoDup idxs -> List.length idxs = List.length l ->
  (forall i, In i idxs -> (i < List.length l)%nat) ->
  Permutation (choose l idxs) l.
Proof.
  intros Hnd Hlen Hb.
  assert (Hp : Permutation idxs (seq 0 (List.length l))).
  { apply NoDup_Permutation_bis; [exact Hnd | rewrite length_seq; lia|].
    intros i Hi. apply in_seq. specialize (Hb i Hi). lia. }
  unfold choose. rewrite (Permutation_flat_map _ Hp).
  pose proof (choose_all_from [] l) as H. unfold choose in H. cbn in H.
  now rewrite H.
Qed.

(** For a request of [k >= 0] blanks the cloze text is the tokens joined
    by spaces, with the blank put for every occurrence of a blanked word
    and every other token left as it is; no determiner or pronoun is ever
    blanked; and when [k] is at least the number of content words, every
    content word is blanked. *)
Theorem cloze_blanks_every_occurrence (rng : sampler) (text : string) (k : Z) :
  0 <= k ->
  exists out blanked,
    generate_cloze_test rng text k = Ok (join " " out, blanked)
    /\ List.length out = List.length (tokenize_text text)
    /\ (forall i word, nth_error (tokenize_text text) i = Some word ->
          nth_error out i
          = Some (if in_dec string_dec word blanked then "_____" else word))
    /\ (forall word, In word blanked -> ~ In word function_words)
    /\ (len (content_words_of text) <= k ->
        Permutation blanked (content_words_of text)).
Proof.
  intros Hk.
  destruct (drawn_facts rng text k Hk) as (Hlen & Hnd & Hb).
  set (blanked := choose (content_words_of text) (drawn rng text k)).
  exists (map (fun word => if in_list word blanked then "_____" else word)
              (tokenize_text text)), blanked.
  split; [now apply generate_cloze_test_returns|].
  split; [apply length_map|]. split; [|split].
  - intros i word Hi. rewrite nth_error_map, Hi. cbn [option_map].
    f_equal. destruct (in_dec string_dec word blanked) as [Hin | Hout].
    + apply in_list_iff in Hin. now rewrite Hin.
    + destruct (in_list word blanked) eqn:E; [|reflexivity].
      apply in_list_iff in E. contradiction.
  - intros word Hin Hf. apply choose_incl in Hin.
    rewrite content_words_filter in Hin.
    apply filter_In in Hin as [_ Hin]. apply in_list_iff in Hf.
    rewrite Hf in Hin. discriminate Hin.
  - intros Hall. apply choose_all; [exact Hnd | | exact Hb].
    unfold len in *. lia.
Qed.

Lemma cloze_blanks_every_occurrence_witness :
  0 <= 5
  /\ exists out blanked,
       generate_cloze_test last_positions "The cat sat. It sat!" 5
       = Ok (join " " out, blanked)
       /\ List.length out = List.length (tokenize_text "The cat sat. It sat!")
       /\ (forall i word,
             nth_error (tokenize_text "The cat sat. It sat!") i = Some word ->
             nth_error out i
             = Some (if in_dec string_dec word blanked then "_____" else word))
       /\ (forall word, In word blanked -> ~ In word function_words)
       /\ (len (content_words_of "The cat sat. It sat!") <= 5 ->
           Permutation blanked (content_words_of "The cat sat. It sat!")).
Proof.
  split; [lia|].
  apply (cloze_blanks_every_occurrence last_positions "The cat sat. It sat!" 5).
  lia.
Defined.

(** ** The classifier is monotone *)

(** The place of a level in the order A1 < A2 < B1 < B2. *)
Definition level_rank (level : string) : Z :=
  if String.eqb level "A1" then 1
  else if String.eqb level "A2" then 2
  else if String.eqb level "B1" then 3
  else if String.eqb level "B2" then 4
  else 0.

Lemma fle_flt_trans (x y c : float) :
  fle x y = true -> flt y c = true -> flt x c = true.
Proof.
  intros Hxy Hyc.
  apply fle_rank in Hxy as (kx & ky & Ex & Ey & L).
  apply flt_rank in Hyc as (ky' & kc & Ey' & Ec & L').
  rewrite Ey in Ey'; injection Ey' as <-.
  apply flt_rank. exists kx, kc. repeat split; trivial.
  destruct kx as [[a b] d], ky as [[a' b'] d'], kc as [[a'' b''] d''].
  unfold key_le, key_lt in *.
  destruct L as [L | L]; [lia | injection L as -> -> ->; exact L'].
Qed.

(** A score that is not smaller gets a level that is not lower, and every
    score gets one of the four levels. *)
Theorem classify_is_monotone (x y : float) :
  fle x y = true ->
  level_rank (classify (Flt x)) <= level_rank (classify (Flt y))
  /\ 1 <= level_rank (classify (Flt x)) <= 4.
Proof.
  intros Hxy. unfold classify, lit. rewrite !lt_num_float. cbn [to_float].
  pose proof (fle_flt_trans x y (ratio 35 100) Hxy) as H1.
  pose proof (fle_flt_trans x y (ratio 55 100) Hxy) as H2.
  pose proof (fle_flt_trans x y (ratio 75 100) Hxy) as H3.
  destruct (flt y (ratio 35 100)), (flt y (ratio 55 100)),
    (flt y (ratio 75 100));
    try rewrite (H1 eq_refl); try rewrite (H2 eq_refl);
    try rewrite (H3 eq_refl);
    repeat match goal with
           | |- context [if flt x ?c then _ else _] => destruct (flt x c)
           end;
    try discriminate (H1 eq_refl); try discriminate (H2 eq_refl);
    try discriminate (H3 eq_refl);
    cbn; lia.
Qed.

Lemma classify_is_monotone_witness :
  fle (ratio 40 100) (ratio 60 100) = true
  /\ level_rank (classify (Flt (ratio 40 100)))
     <= level_rank (classify (Flt (ratio 60 100)))
  /\ 1 <= level_rank (classify (Flt (ratio 40 100))) <= 4.
Proof.
  split; [reflexivity|].
  apply (classify_is_monotone (ratio 40 100) (ratio 60 100)). reflexivity.
Defined.

(** ** When the analysis raises *)

Lemma analyze_vocabulary_without_tokens (rng : sampler) (text : string) :
  tokenize_text text = [] ->
  analyze_vocabulary rng text = Raise ZeroDivisionError.
Proof.
  intros E. unfold analyze_vocabulary.
  destruct (flesch_kincaid_returns text) as [fk ->].
  destruct (flesch_reading_ease_returns text) as [ease ->].
  destruct (gunning_fog_returns text) as [fog ->].
  rewrite smog_index_value. cbn [bind].
  unfold calculate_ttr. rewrite E. reflexivity.
Qed.

(** The analysis raises exactly on a text without a token (an empty text,
    or one of whitespace and punctuation only), and what it raises is the
    [ZeroDivisionError] of the type-token ratio; on every other text it
    returns a result. *)
Theorem analyze_vocabulary_raises_without_tokens (rng : sampler)
    (text : string) :
  match analyze_vocabulary rng text with
  | Ok _ => tokenize_text text <> []
  | Raise e => e = ZeroDivisionError /\ tokenize_text text = []
  end.
Proof.
  destruct (tokenize_text text) as [|w l] eqn:E.
  - rewrite (analyze_vocabulary_without_tokens rng text E). now split.
  - assert (Hne : tokenize_text text <> []) by (rewrite E; discriminate).
    destruct (analyze_vocabulary_returns rng text Hne) as [r ->].
    discriminate.
Qed.

(** ** Clause counts *)

Lemma filter_length_le {A : Type} (p : A -> bool) (l : list A) :
  (List.length (filter p l) <= List.length l)%nat.
Proof.
  induction l as [|x l IH]; cbn [filter]; [lia|].
  destruct (p x); cbn [List.length]; lia.
Qed.

(** A sentence has at least 1 clause and at most 14, one more than there
    are markers; so the clauses of a text are at least as many as its
    sentences and at most 14 times as many. *)
Theorem clause_counts_are_bounded (text : string) :
  (forall sentence, 1 <= sentence_clauses sentence <= 14)
  /\ len (sentence_tokenize text)
     <= sum (map sentence_clauses (sentence_tokenize text))
     <= 14 * len (sentence_tokenize text).
Proof.
  assert (H : forall sentence, 1 <= sentence_clauses sentence <= 14).
  { intros sentence. unfold sentence_clauses. rewrite sum_ones.
    pose proof (filter_length_le
                  (fun marker => contains (lower sentence) marker)
                  clause_markers) as Hle.
    unfold len. cbn [clause_markers List.length] in Hle. lia. }
  split; [exact H|].
  induction (sentence_tokenize text) as [|s l IH].
  - cbn. lia.
  - cbn [map]. rewrite sum_cons. specialize (H s).
    unfold len in *. cbn [List.length]. lia.
Qed.

(** ** Adjusting a text in several attempts *)

Section Attempts.

Variable reply : nat -> option string.
Variable rngs : nat -> sampler.
Variables text target_level : string.
Variable max_attempts : Z.

(** The text and the analysis of the attempt with index [i]. *)
Definition adjusted_at (i : Z) : string :=
  adjust_vocabulary (reply (Z.to_nat i)) text target_level.

Definition analysis_at (i : Z) : exc analysis :=
  analyze_vocabulary (rngs (Z.to_nat i)) (adjusted_at i).

(** The attempt [i] was analysed and missed the target level. *)
Definition missed (i : Z) : Prop :=
  exists a, analysis_at i = Ok a /\ overall_level a <> target_level.

(** What a [return] inside the loop, entered at [attempt], gives. *)
Definition returned_from (attempt : Z) (result : string * analysis * Z)
    : Prop :=
  let '(t, a, n) := result in
  attempt + 1 <= n <= max_attempts
  /\ t = adjusted_at (n - 1)
  /\ analysis_at (n - 1) = Ok a
  /\ (n < max_attempts -> overall_level a = target_level)
  /\ (forall i, attempt <= i < n - 1 -> missed i).

Lemma attempts_loop_returns (remaining : nat) (attempt : Z)
    (returned : option (string * analysis * Z)) :
  0 <= attempt ->
  attempt + Z.of_nat remaining = max_attempts ->
  attempts_loop reply rngs text target_level max_attempts remaining attempt
  = Ok returned ->
  match returned with
  | Some result => returned_from attempt result
  | None => remaining = 0%nat
  end.
Proof.
  revert attempt; induction remaining as [|rest IH]; intros attempt H0 Hmax H.
  - cbn in H. apply Ok_inj in H. now subst.
  - cbn [attempts_loop] in H.
    fold (adjusted_at attempt) in H. fold (analysis_at attempt) in H.
    destruct (analysis_at attempt) as [a | e] eqn:Ea; [|discriminate H].
    cbn [bind] in H.
    destruct (String.eqb (overall_level a) target_level) eqn:Elevel.
    + apply Ok_inj in H. subst returned. cbn [returned_from].
      replace (attempt + 1 - 1) with attempt by lia.
      repeat split; try lia; trivial.
      intros _. now apply String.eqb_eq.
    + apply String.eqb_neq in Elevel.
      destruct (Z.eqb_spec attempt (max_attempts - 1)) as [Elast | Emore].
      * apply Ok_inj in H. subst returned. cbn [returned_from].
        rewrite <- Elast.
        repeat split; try lia; trivial.
      * apply IH in H; [|lia|lia].
        destruct returned as [[[t a'] n]|]; [|lia].
        cbn [returned_from] in *.
        destruct H as (Hn & Ht & Han & Hlt & Hmiss).
        repeat split; try lia; trivial.
        intros i Hi. destruct (Z.eq_dec i attempt) as [-> | Hne].
        -- now exists a.
        -- apply Hmiss. lia.
Qed.

(** What [adjust_text_with_attempts] gives when it returns.  With
    [max_attempts <= 0] the loop does not run: the result is the original
    text with its analysis.  Otherwise the result is the adjusted text of
    an attempt [n] between 1 and [max_attempts] with the analysis of that
    text; every earlier attempt missed the target level, and attempt [n]
    reaches it unless it is the last one. *)
Theorem adjust_text_with_attempts_result (t : string) (a : analysis) (n : Z) :
  adjust_text_with_attempts reply rngs text target_level max_attempts
  = Ok (t, a, n) ->
  (max_attempts <= 0 ->
   t = text /\ n = max_attempts
   /\ analyze_vocabulary (rngs 0%nat) text = Ok a)
  /\ (1 <= max_attempts ->
      1 <= n <= max_attempts
      /\ t = adjusted_at (n - 1)
      /\ analysis_at (n - 1) = Ok a
      /\ (n < max_attempts -> overall_level a = target_level)
      /\ (forall i, 0 <= i < n - 1 -> missed i)).
Proof.
  unfold adjust_text_with_attempts. intros H.
  destruct (attempts_loop reply rngs text target_level max_attempts
              (Z.to_nat max_attempts) 0) as [returned | e] eqn:Eloop;
    [|discriminate H].
  cbn [bind] in H. split; intros Hmax.
  - replace (Z.to_nat max_attempts) with 0%nat in * by lia.
    cbn in Eloop. apply Ok_inj in Eloop. subst returned.
    destruct (analyze_vocabulary (rngs 0%nat) text) as [a0 | e] eqn:Ea;
      [|discriminate H].
    cbn [bind] in H. apply Ok_inj in H. injection H as -> -> ->.
    now repeat split.
  - apply attempts_loop_returns in Eloop; [|lia|lia].
    destruct returned as [result|]; [|lia].
    apply Ok_inj in H. subst result. exact Eloop.
Qed.

(** An exception of the analysis leaves [adjust_text_with_attempts]: when
    the first adjusted text has no token (the service answered with
    whitespace only, say), the call raises [ZeroDivisionError]. *)
Theorem adjust_text_with_attempts_raises :
  1 <= max_attempts ->
  tokenize_text (adjusted_at 0) = [] ->
  adjust_text_with_attempts reply rngs text target_level max_attempts
  = Raise ZeroDivisionError.
Proof.
  intros Hmax Hempty. unfold adjust_text_with_attempts.
  destruct (Z.to_nat max_attempts) as [|rest] eqn:E; [lia|].
  cbn [attempts_loop]. fold (adjusted_at 0).
  now rewrite (analyze_vocabulary_without_tokens _ _ Hempty).
Qed.

End Attempts.

(** A service that always answers with the same content. *)
Definition constant_reply (content : string) : nat -> option string :=
  fun _ => Some content.

Lemma adjust_text_with_attempts_result_witness :
  exists t a n,
    adjust_text_with_attempts (constant_reply " The cat sat. ")
      (fun _ => first_positions) "A dog." "A1" 3 = Ok (t, a, n)
    /\ (3 <= 0 ->
        t = "A dog." /\ n = 3
        /\ analyze_vocabulary first_positions "A dog." = Ok a)
    /\ (1 <= 3 ->
        1 <= n <= 3
        /\ t = adjusted_at (constant_reply " The cat sat. ") "A dog." "A1"
                           (n - 1)
        /\ analysis_at (constant_reply " The cat sat. ")
                       (fun _ => first_positions) "A dog." "A1" (n - 1) = Ok a
        /\ (n < 3 -> overall_level a = "A1")
        /\ (forall i, 0 <= i < n - 1 ->
              missed (constant_reply " The cat sat. ")
                     (fun _ => first_positions) "A dog." "A1" i)).
Proof.
  assert (H : exists r,
             adjust_text_with_attempts (constant_reply " The cat sat. ")
               (fun _ => first_positions) "A dog." "A1" 3 = Ok r)
    by (eexists; vm_compute; reflexivity).
  destruct H as [[[t a] n] H]. exists t, a, n. split; [exact H|].
  exact (adjust_text_with_attempts_result (constant_reply " The cat sat. ")
           (fun _ => first_positions) "A dog." "A1" 3 t a n H).
Defined.

Lemma adjust_text_with_attempts_raises_witness :
  1 <= 3
  /\ tokenize_text (adjusted_at (constant_reply "   ") "A dog." "A1" 0) = []
  /\ adjust_text_with_attempts (constant_reply "   ")
       (fun _ => first_positions) "A dog." "A1" 3
     = Raise ZeroDivisionError.
Proof.
  split; [lia|]. split; [reflexivity|].
  apply (adjust_text_with_attempts_raises (constant_reply "   ")
           (fun _ => first_positions) "A dog." "A1" 3); [lia | reflexivity].
Defined.

(** ** Sentences and tokens together *)

Lemma space_is_not_word (c : ascii) :
  is_space c = true -> is_word_char (lower_char c) = false.
Proof. destruct c as [[] [] [] [] [] [] [] []]; now intros H. Qed.

Lemma terminal_is_not_space (c : ascii) :
  is_terminal c = true -> is_space c = false.
Proof. destruct c as [[] [] [] [] [] [] [] []]; now intros H. Qed.

Lemma lower_app (a b : string) : lower (a ++ b) = lower a ++ lower b.
Proof. induction a as [|c a IH]; cbn; [reflexivity | now rewrite IH]. Qed.

(** A character that is not a word character ends the token before it. *)
Lemma findall_words_break (x y cur : string) (c : ascii) :
  is_word_char (lower_char c) = false ->
  findall_words cur (lower (x ++ String c y))
  = (findall_words cur (lower x) ++ findall_words "" (lower y))%list.
Proof.
  intros Hc. revert cur; induction x as [|d x IH]; intros cur.
  - cbn [append lower findall_words]. now rewrite Hc.
  - cbn [append lower findall_words]. destruct (is_word_char (lower_char d)).
    + apply IH.
    + rewrite IH. now rewrite app_assoc.
Qed.

Lemma split_sentences_tokens (s cur : string) (a b : bool) :
  (b = true -> cur = "") ->
  flat_map tokenize_text (split_sentences a b cur s)
  = tokenize_text (cur ++ s).
Proof.
  revert cur a b; induction s as [|c r IH]; intros cur a b Hb;
    cbn [split_sentences].
  - cbn [flat_map]. now rewrite app_nil_r, append_nil_r.
  - destruct (is_space c) eqn:Sp.
    + pose proof (space_is_not_word c Sp) as Hc.
      destruct b.
      * rewrite (Hb eq_refl), IH by reflexivity.
        unfold tokenize_text. cbn [append lower findall_words].
        now rewrite Hc.
      * destruct a.
        -- cbn [flat_map]. rewrite IH by reflexivity. cbn [append].
           unfold tokenize_text. now rewrite findall_words_break.
        -- rewrite IH by discriminate. unfold snoc. now rewrite append_assoc.
    + rewrite IH by discriminate. unfold snoc. now rewrite append_assoc.
Qed.

(** Splitting into sentences never cuts a word: the tokens of the text
    are the tokens of its sentences, one sentence after the other, so the
    word count of the text is the sum of the word counts of its
    sentences. *)
Theorem tokens_of_the_sentences (text : string) :
  flat_map tokenize_text (sentence_tokenize text) = tokenize_text text
  /\ sum (map (fun sentence => len (tokenize_text sentence))
              (sentence_tokenize text))
     = len (tokenize_text text).
Proof.
  assert (H : flat_map tokenize_text (sentence_tokenize text)
              = tokenize_text text)
    by (apply (split_sentences_tokens text "" false false); discriminate).
  split; [exact H|]. rewrite <- H. clear H.
  induction (sentence_tokenize text) as [|s l IH]; [reflexivity|].
  cbn [map flat_map]. rewrite sum_cons, IH.
  unfold len. rewrite length_app. lia.
Qed.

Lemma split_sentences_trailing (pre cur : string) (a b : bool) (t c : ascii) :
  is_terminal t = true -> is_space c = true ->
  split_sentences a b cur (snoc (snoc pre t) c)
  = (split_sentences a b cur (snoc pre t) ++ [""])%list.
Proof.
  intros Ht Hc. pose proof (terminal_is_not_space t Ht) as Hts.
  revert cur a b; induction pre as [|d pre IH]; intros cur a b.
  - unfold snoc. cbn [append split_sentences]. rewrite Hts, Ht.
    cbn [split_sentences]. now rewrite Hc.
  - change (snoc (snoc (String d pre) t) c)
      with (String d (snoc (snoc pre t) c)).
    change (snoc (String d pre) t) with (String d (snoc pre t)).
    cbn [split_sentences].
    destruct (is_space d); [destruct b; [|destruct a]|];
      rewrite IH; reflexivity.
Qed.

(** Whitespace after a final terminal mark makes one more sentence, an
    empty one: the sentence count of such a text is one more than that of
    the text without the trailing whitespace character. *)
Theorem trailing_whitespace_adds_a_sentence (text : string) (c : ascii) :
  ends_terminal text -> is_space c = true ->
  sentence_tokenize (snoc text c) = (sentence_tokenize text ++ [""])%list
  /\ len (sentence_tokenize (snoc text c)) = len (sentence_tokenize text) + 1.
Proof.
  intros (pre & t & -> & Ht) Hc.
  assert (H : sentence_tokenize (snoc (snoc pre t) c)
              = (sentence_tokenize (snoc pre t) ++ [""])%list)
    by now apply split_sentences_trailing.
  split; [exact H|]. rewrite H. unfold len. rewrite length_app. cbn. lia.
Qed.

Lemma trailing_whitespace_adds_a_sentence_witness :
  ends_terminal "Hi there."
  /\ is_space " "%char = true
  /\ sentence_tokenize (snoc "Hi there." " "%char)
     = (sentence_tokenize "Hi there." ++ [""])%list
  /\ len (sentence_tokenize (snoc "Hi there." " "%char))
     = len (sentence_tokenize "Hi there.") + 1.
Proof.
  assert (He : ends_terminal "Hi there.")
    by (exists "Hi there", "."%char; split; reflexivity).
  split; [exact He|]. split; [reflexivity|].
  exact (trailing_whitespace_adds_a_sentence "Hi there." " "%char He eq_refl).
Defined.

(** ** Stripping the answer of the service *)

Lemma lstrip_tokens (s : string) :
  findall_words "" (lower (lstrip s)) = findall_words "" (lower s).
Proof.
  induction s as [|c r IH]; [reflexivity|].
  cbn [lstrip]. destruct (is_space c) eqn:Sp; [|reflexivity].
  rewrite IH. cbn [lower findall_words].
  now rewrite (space_is_not_word c Sp).
Qed.

Lemma rstrip_tokens (s cur : string) :
  findall_words cur (lower (rstrip s)) = findall_words cur (lower s).
Proof.
  revert cur; induction s as [|c r IH]; intros cur; [reflexivity|].
  cbn [rstrip]. destruct (rstrip r) as [|d r'] eqn:E.
  - destruct (is_space c) eqn:Sp.
    + cbn [lower findall_words]. rewrite (space_is_not_word c Sp).
      rewrite <- IH. cbn [lower findall_words flush]. now rewrite app_nil_r.
    + cbn [lower findall_words].
      destruct (is_word_char (lower_char c)); now rewrite <- IH.
  - cbn [lower findall_words] in *.
    destruct (is_word_char (lower_char c)); now rewrite <- IH.
Qed.

(** [adjust_vocabulary] gives the text back when the request failed, and
    otherwise the answer of the service without the whitespace around it;
    stripping changes no token, so the adjusted text has the tokens of
    the raw answer. *)
Theorem adjust_vocabulary_keeps_tokens (text target_level content : string) :
  adjust_vocabulary None text target_level = text
  /\ adjust_vocabulary (Some content) text target_level = strip content
  /\ tokenize_text (adjust_vocabulary (Some content) text target_level)
     = tokenize_text content
  /\ starts_nonspace (strip content).
Proof.
  split; [reflexivity|]. split; [reflexivity|]. split.
  - cbn [adjust_vocabulary]. unfold tokenize_text, strip.
    rewrite rstrip_tokens. apply lstrip_tokens.
  - unfold strip.
    assert (Hl : starts_nonspace (lstrip content)).
    { induction content as [|c r IH]; [exact I|].
      cbn [lstrip]. destruct (is_space c) eqn:Sp; [exact IH | exact Sp]. }
    destruct (lstrip content) as [|c r]; [exact I|].
    cbn [rstrip]. cbn [starts_nonspace] in Hl.
    destruct (rstrip r); [now rewrite Hl | exact Hl].
Qed.

(** ** Text generation ([text_generation.py])

    As for the adjustment, [reply i] is the content of the service's
    answer to the [i]-th request, [None] when the request fails.  The
    prompt of [create_prompt] only goes into the request; what is printed
    is left out. *)

(** The maximal runs of characters of the class [p]. *)
Fixpoint runs (p : ascii -> bool) (cur : string) (s : string) : list string :=
  match s with
  | EmptyString => flush cur
  | String c r =>
      if p c then runs p (snoc cur c) r
      else (flush cur ++ runs p "" r)%list
  end.

(** [s.split()] *)
Definition str_split (s : string) : list string := runs not_space "" s.

Definition is_digit (c : ascii) : bool := between 48 57 c.

(** [re.findall(r'\d+', s)] *)
Definition find_numbers (s : string) : list string := runs is_digit "" s.

(** [int(s)] on a run of digits. *)
Fixpoint int_digits (acc : Z) (s : string) : Z :=
  match s with
  | EmptyString => acc
  | String c r => int_digits (10 * acc + (Z.of_nat (code c) - 48)) r
  end.

Definition int_of (s : string) : Z := int_digits 0 s.

Definition length_mapping : list (string * string) :=
  [("Short (100-150 words)", "short (100-150 words)");
   ("Medium (150-250 words)", "medium-length (150-250 words)");
   ("Long (250-350 words)", "long (250-350 words)")].

(** [table[key]]; [None] stands for the [KeyError]. *)
Fixpoint lookup (key : string) (table : list (string * string))
    : option string :=
  match table with
  | [] => None
  | (k, v) :: rest => if String.eqb key k then Some v else lookup key rest
  end.

(** [min_words, max_words = map(int, re.findall(r'\d+', length))]; [None]
    stands for the [ValueError] of the unpacking. *)
Definition word_range (length : string) : option (Z * Z) :=
  match map int_of (find_numbers length) with
  | [min_words; max_words] => Some (min_words, max_words)
  | _ => None
  end.

(** [generate_text(prompt)]: the stripped content, or [None]. *)
Definition generate_text (response : option string) : option string :=
  match response with
  | Some content => Some (strip content)
  | None => None
  end.

(** What leaves [generate_topic_based_text] as an exception. *)
Inductive raised : Type :=
| KeyError (key : string)
| FromAnalysis (e : exn).

Inductive outcome (A : Type) : Type :=
| Returns (a : A)
| Raises (r : raised).

Arguments Returns {A} a.
Arguments Raises {A} r.

(** The loop [for attempt in range(max_attempts)] from [attempt] on;
    [Returns None] is the final [return None, None]. *)
Fixpoint generation_loop (reply : nat -> option string) (rngs : nat -> sampler)
    (level length : string) (remaining attempt : nat)
    : outcome (option (string * analysis)) :=
  match remaining with
  | O => Returns None
  | S rest =>
      let retry :=
        generation_loop reply rngs level length rest (S attempt) in
      match generate_text (reply attempt) with
      | None => retry
      | Some text =>
          if String.eqb text "" then retry
          else
            let word_count := len (str_split text) in
            match analyze_vocabulary (rngs attempt) text with
            | Raise e => Raises (FromAnalysis e)
            | Ok analysis =>
                match word_range length with
                | None => retry
                | Some (min_words, max_words) =>
                    if ((min_words <=? word_count)
                        && (word_count <=? max_words)
                        && String.eqb (overall_level analysis) level)%bool
                    then Returns (Some (text, analysis))
                    else retry
                end
            end
      end
  end.

Definition generate_topic_based_text (reply : nat -> option string)
    (rngs : nat -> sampler) (topic level text_length : string)
    (max_attempts : Z) : outcome (option (string * analysis)) :=
  match lookup text_length length_mapping with
  | None => Raises (KeyError text_length)
  | Some length =>
      generation_loop reply rngs level length (Z.to_nat max_attempts) 0
  end.

(** The word range of a length label of the application. *)
Definition label_range (text_length : string) : option (Z * Z) :=
  if String.eqb text_length "Short (100-150 words)" then Some (100, 150)
  else if String.eqb text_length "Medium (150-250 words)" then Some (150, 250)
  else if String.eqb text_length "Long (250-350 words)" then Some (250, 350)
  else None.

Lemma lookup_word_range (text_length : string) :
  match lookup text_length length_mapping with
  | Some length => word_range length = label_range text_length
  | None => label_range text_length = None
  end.
Proof.
  unfold label_range, length_mapping. cbn [lookup].
  repeat (destruct (String.eqb text_length _); [reflexivity|]).
  reflexivity.
Qed.

Lemma generation_loop_returned (reply : nat -> option string)
    (rngs : nat -> sampler) (level length : string) (remaining attempt : nat)
    (text : string) (a : analysis) :
  generation_loop reply rngs level length remaining attempt
  = Returns (Some (text, a)) ->
  exists i min_words max_words,
    (attempt <= i < attempt + remaining)%nat
    /\ generate_text (reply i) = Some text
    /\ text <> ""
    /\ analyze_vocabulary (rngs i) text = Ok a
    /\ word_range length = Some (min_words, max_words)
    /\ min_words <= len (str_split text) <= max_words
    /\ overall_level a = level.
Proof.
  revert attempt; induction remaining as [|rest IH]; intros attempt H.
  - discriminate H.
  - cbn [generation_loop] in H.
    assert (Hretry :
      generation_loop reply rngs level length rest (S attempt)
      = Returns (Some (text, a)) ->
      exists i min_words max_words,
        (attempt <= i < attempt + S rest)%nat
        /\ generate_text (reply i) = Some text
        /\ text <> ""
        /\ analyze_vocabulary (rngs i) text = Ok a
        /\ word_range length = Some (min_words, max_words)
        /\ min_words <= len (str_split text) <= max_words
        /\ overall_level a = level).
    { intros Hr. apply IH in Hr as (i & lo & hi & Hi & Hrest).
      exists i, lo, hi. split; [lia | exact Hrest]. }
    destruct (generate_text (reply attempt)) as [t|] eqn:Eg; [|auto].
    destruct (String.eqb t "") eqn:Et; [auto|].
    destruct (analyze_vocabulary (rngs attempt) t) as [an|e] eqn:Ea;
      [|discriminate H].
    destruct (word_range length) as [[lo hi]|] eqn:Ew; [|auto].
    destruct (_ && _)%bool eqn:Ec; [|auto].
    injection H as <- <-.
    apply andb_true_iff in Ec as [Ec Elevel].
    apply andb_true_iff in Ec as [Elo Ehi].
    exists attempt, lo, hi. split; [lia|].
    split; [exact Eg|]. split; [now apply String.eqb_neq|].
    split; [exact Ea|]. split; [reflexivity|].
    split; [lia | now apply String.eqb_eq].
Qed.

(** A text that [generate_topic_based_text] returns is the stripped,
    non-empty answer to one of the first [max_attempts] requests; its
    number of whitespace-separated words lies in the range of the length
    label, the level of its analysis is the requested level, and the
    analysis returned with it is the analysis of that text. *)
Theorem generated_text_meets_the_request (reply : nat -> option string)
    (rngs : nat -> sampler) (topic level text_length : string)
    (max_attempts : Z) (text : string) (a : analysis) :
  generate_topic_based_text reply rngs topic level text_length max_attempts
  = Returns (Some (text, a)) ->
  exists i min_words max_words,
    0 <= Z.of_nat i < max_attempts
    /\ generate_text (reply i) = Some text
    /\ text <> ""
    /\ analyze_vocabulary (rngs i) text = Ok a
    /\ label_range text_length = Some (min_words, max_words)
    /\ min_words <= len (str_split text) <= max_words
    /\ overall_level a = level.
Proof.
  unfold generate_topic_based_text. intros H.
  pose proof (lookup_word_range text_length) as Hrange.
  destruct (lookup text_length length_mapping) as [length|]; [|discriminate H].
  apply generation_loop_returned in H
    as (i & lo & hi & Hi & Hg & Hne & Ha & Hw & Hc & Hl).
  exists i, lo, hi. split; [lia|]. rewrite <- Hrange.
  now repeat split.
Qed.

(** A length label outside the three of the table raises [KeyError]
    before any request is made; and a non-empty answer without a token
    passes the test [if text:] and makes the analysis raise. *)
Theorem generate_topic_based_text_raises (reply : nat -> option string)
    (rngs : nat -> sampler) (topic level text_length : string)
    (max_attempts : Z) :
  (label_range text_length = None ->
   generate_topic_based_text reply rngs topic level text_length max_attempts
   = Raises (KeyError text_length))
  /\ (label_range text_length <> None ->
      1 <= max_attempts ->
      (exists text, generate_text (reply 0%nat) = Some text
                    /\ text <> "" /\ tokenize_text text = []) ->
      generate_topic_based_text reply rngs topic level text_length max_attempts
      = Raises (FromAnalysis ZeroDivisionError)).
Proof.
  unfold generate_topic_based_text.
  pose proof (lookup_word_range text_length) as Hrange.
  split.
  - intros Hnone.
    destruct (lookup text_length length_mapping) as [length|] eqn:El;
      [|reflexivity].
    unfold label_range, length_mapping in *. cbn [lookup] in El.
    repeat (destruct (String.eqb text_length _); [discriminate Hnone|]).
    discriminate El.
  - intros Hsome Hmax (text & Hg & Hne & Htok).
    destruct (lookup text_length length_mapping) as [length|];
      [|contradiction].
    destruct (Z.to_nat max_attempts) as [|rest] eqn:E; [lia|].
    cbn [generation_loop]. rewrite Hg.
    apply String.eqb_neq in Hne. rewrite Hne.
    now rewrite (analyze_vocabulary_without_tokens _ _ Htok).
Qed.

(** [n] copies of [s]. *)
Fixpoint times (n : nat) (s : string) : string :=
  match n with
  | O => EmptyString
  | S m => s ++ times m s
  end.

Example split_and_numbers_sample :
  str_split "  ab  c d. " = ["ab"; "c"; "d."]
  /\ find_numbers "short (100-150 words)" = ["100"; "150"]
  /\ word_range "medium-length (150-250 words)" = Some (150, 250)
  /\ strip "  The cat.  " = "The cat.".
Proof. repeat split; reflexivity. Qed.

(** The label that [app.py] puts in its session state at start is not a
    key of the table. *)
Example unknown_label_sample :
  generate_topic_based_text (constant_reply "The cat sat.")
    (fun _ => first_positions) "Food" "A1" "Medium (100-200 words)" 3
  = Raises (KeyError "Medium (100-200 words)").
Proof. reflexivity. Qed.

Lemma generated_text_meets_the_request_witness :
  exists text a,
    generate_topic_based_text (constant_reply (times 40 "The cat sat. "))
      (fun _ => first_positions) "Food" "A1" "Short (100-150 words)" 3
    = Returns (Some (text, a))
    /\ exists i min_words max_words,
         0 <= Z.of_nat i < 3
         /\ generate_text (constant_reply (times 40 "The cat sat. ") i)
            = Some text
         /\ text <> ""
         /\ analyze_vocabulary first_positions text = Ok a
         /\ label_range "Short (100-150 words)" = Some (min_words, max_words)
         /\ min_words <= len (str_split text) <= max_words
         /\ overall_level a = "A1".
Proof.
  assert (H : exists r,
             generate_topic_based_text
               (constant_reply (times 40 "The cat sat. "))
               (fun _ => first_positions) "Food" "A1"
               "Short (100-150 words)" 3
             = Returns (Some r))
    by (eexists; vm_compute; reflexivity).
  destruct H as [[text a] H]. exists text, a. split; [exact H|].
  exact (generated_text_meets_the_request
           (constant_reply (times 40 "The cat sat. "))
           (fun _ => first_positions) "Food" "A1" "Short (100-150 words)" 3
           text a H).
Defined.
